(** * persona: the guided-configuration builder of [src/builder.js]

    A shallow embedding of the class [GeneratedBuilder] returned by the
    default export of [builder.js], with the properties of its query
    operations ([fields], [missing], [options], [requires], [get]) and of its
    validating operations (the constructor and [choose]).

    Modelling conventions.
    - A JavaScript object used as a map is an association list carrying its
      own keys in [Object.keys] order, which for keys that are not canonical
      array indices is insertion order.  Keys are looked up among own
      properties only, and an object has each key once, so a loop over
      [Object.keys(o)] that reads [o[key]] is a loop over the entries.
    - A number is an integer [Z]; nothing in the builder computes with
      numbers, they are only compared by type and turned into property keys.
    - A validation predicate is a total function from values to the
      truthiness of what it returns.
    - A thrown exception is the [Throw] case of [result]; [TypeError] is what
      the engine raises on a property read of [undefined] or a call of a
      non-function.
    - The functions of Ramda ([path], [keys], [contains], [merge], [reject],
      [chain], [join], [split], [prop]) are modelled on the arguments the
      builder hands them. *)

From Stdlib Require Import String Ascii List ZArith Bool Lia DecimalString.
Import ListNotations.
Open Scope string_scope.
Open Scope list_scope.

(** ** Values supplied by callers

    [undefined], [null], booleans, integers and strings; symbols, objects
    and numbers that are not integers are not modelled. *)

Inductive value : Type :=
| VUndefined
| VNull
| VBoolean (b : bool)
| VNumber (n : Z)
| VString (s : string).

(** [typeof v] *)
Definition typeof (v : value) : string :=
  match v with
  | VUndefined => "undefined"
  | VNull => "object"
  | VBoolean _ => "boolean"
  | VNumber _ => "number"
  | VString _ => "string"
  end.

(** The property key a value denotes in [obj[v]]; a number gives its
    decimal digits, as it does in the code below 1e21. *)
Definition to_key (v : value) : string :=
  match v with
  | VUndefined => "undefined"
  | VNull => "null"
  | VBoolean true => "true"
  | VBoolean false => "false"
  | VNumber n => NilZero.string_of_int (Z.to_int n)
  | VString s => s
  end.

(** [v === undefined] *)
Definition is_undefined (v : value) : bool :=
  match v with VUndefined => true | _ => false end.

(** Ramda's [isNil] *)
Definition isNil (v : value) : bool :=
  match v with VUndefined | VNull => true | _ => false end.

(** ** Errors and results *)

Inductive error : Type :=
| InvalidField (field : string)
| InvalidChoice (field : string) (v : value) (reason : option string)
| TypeError.

Inductive result (A : Type) : Type :=
| Ok (a : A)
| Throw (e : error).
Arguments Ok {A} a.
Arguments Throw {A} e.

Definition bind {A B} (r : result A) (k : A -> result B) : result B :=
  match r with
  | Ok a => k a
  | Throw e => Throw e
  end.

Notation "x <- r ;; k" := (bind r (fun x => k))
  (at level 61, r at next level, right associativity).

(** Evaluate the elements of an array literal left to right. *)
Fixpoint sequence {A} (rs : list (result A)) : result (list A) :=
  match rs with
  | [] => Ok []
  | r :: rs' => a <- r ;; l <- sequence rs' ;; Ok (a :: l)
  end.

(** ** The schema *)

Inductive OptionLiteral : Type := STRING | NUMBER.

Inductive OptionSpace (N : Type) : Type :=
| Literal (l : OptionLiteral)
| Enumerated (m : list (string * N)).
Arguments Literal {N} l.
Arguments Enumerated {N} m.

Record FieldSpec (N : Type) : Type := mkField {
  options : OptionSpace N;
  required : option bool;
  validation : option (value -> bool)
}.
Arguments mkField {N}.
Arguments options {N}.
Arguments required {N}.
Arguments validation {N}.

#[warnings="-register-all"]
Inductive SchemaNode : Type :=
| Node (fields : list (string * FieldSpec SchemaNode)).

Definition node_fields (n : SchemaNode) : list (string * FieldSpec SchemaNode) :=
  match n with Node fs => fs end.

(** ** Objects as association lists *)

Definition obj (A : Type) : Type := list (string * A).

Definition keys {A} (o : obj A) : list string := map fst o.

Fixpoint lookup {A} (k : string) (o : obj A) : option A :=
  match o with
  | [] => None
  | (k', a) :: o' => if String.eqb k k' then Some a else lookup k o'
  end.

(** [o[k] = v] *)
Fixpoint set {A} (k : string) (v : A) (o : obj A) : obj A :=
  match o with
  | [] => [(k, v)]
  | (k', a) :: o' => if String.eqb k k' then (k', v) :: o' else (k', a) :: set k v o'
  end.

(** Ramda's [merge l r], that is [Object.assign({}, l, r)]. *)
Definition merge {A} (l r : obj A) : obj A :=
  fold_left (fun acc kv => set (fst kv) (snd kv) acc) r
            (fold_left (fun acc kv => set (fst kv) (snd kv) acc) l []).

Definition ChoiceSet : Type := obj value.

(** [choices[k]] *)
Definition choice_at (choices : ChoiceSet) (k : string) : value :=
  match lookup k choices with
  | Some v => v
  | None => VUndefined
  end.

(** Ramda's [contains] on an array of strings *)
Definition contains (s : string) (l : list string) : bool :=
  existsb (String.eqb s) l.

(** Ramda's [join] *)
Definition join (sep : string) (l : list string) : string := String.concat sep l.

(** ** [fields()] *)

Section Fields.
Variable choices : ChoiceSet.

Fixpoint ideaFn (config : SchemaNode) (breadcrumb : list string)
  : result (list string) :=
  match config with
  | Node fields =>
    let field := join "." breadcrumb in
    rs <- sequence
      (map (fun kv : string * FieldSpec SchemaNode =>
         let (key, spec) := kv in
         let route := breadcrumb ++ [key] in
         let choicePath := join "." route in
         match options spec with
         | Literal _ => Ok [choicePath]
         | Enumerated opts =>
           if is_undefined (choice_at choices choicePath) then Ok [choicePath]
           else
             (fix descend (m : list (string * SchemaNode)) : result (list string) :=
                match m with
                | [] => Throw TypeError
                | (o, n) :: m' =>
                  if String.eqb (to_key (choice_at choices choicePath)) o
                  then ideaFn n route
                  else descend m'
                end) opts
         end) fields) ;;
    Ok (field :: concat rs)
  end.
End Fields.

Definition fields_of (definition : SchemaNode) (choices : ChoiceSet)
  : result (list string) :=
  l <- ideaFn choices definition [] ;; Ok (tl l).

(** ** The schema as the JavaScript object the code walks *)

#[warnings="-register-all"]
Inductive jsv : Type :=
| JUndefined
| JSymbol (l : OptionLiteral)
| JBoolean (b : bool)
| JFunction (f : value -> bool)
| JObject (props : list (string * jsv)).

Definition spec_to_js {N} (node_to_js : N -> jsv) (spec : FieldSpec N) : jsv :=
  JObject
    ([("options",
       match options spec with
       | Literal l => JSymbol l
       | Enumerated m => JObject (map (fun on => (fst on, node_to_js (snd on))) m)
       end)]
     ++ match required spec with Some b => [("required", JBoolean b)] | None => [] end
     ++ match validation spec with Some f => [("validation", JFunction f)] | None => [] end).

Fixpoint node_to_js (n : SchemaNode) : jsv :=
  match n with
  | Node fields =>
    JObject [("fields",
              JObject (map (fun kv => (fst kv, spec_to_js node_to_js (snd kv))) fields))]
  end.

(** [definition.fields] *)
Definition fields_to_js (fields : list (string * FieldSpec SchemaNode)) : jsv :=
  JObject (map (fun kv => (fst kv, spec_to_js node_to_js (snd kv))) fields).

(** [val[k]] for a [val] that is neither [null] nor [undefined]; symbols,
    booleans and predicates are read as having no properties. *)
Definition js_get (val : jsv) (k : string) : jsv :=
  match val with
  | JObject props =>
    match lookup k props with
    | Some v => v
    | None => JUndefined
    end
  | _ => JUndefined
  end.

(** [val.k], which throws on [undefined] *)
Definition js_member (val : jsv) (k : string) : result jsv :=
  match val with
  | JUndefined => Throw TypeError
  | _ => Ok (js_get val k)
  end.

(** Ramda's [path]: follow the keys, giving [undefined] as soon as the value
    at hand is [null] or [undefined]. *)
Fixpoint path (paths : list value) (val : jsv) : jsv :=
  match paths with
  | [] => val
  | p :: paths' =>
    match val with
    | JUndefined => JUndefined
    | _ => path paths' (js_get val (to_key p))
    end
  end.

(** [String.prototype.split] on a one-character separator *)
Fixpoint split_on (sep : ascii) (s : string) : list string :=
  match s with
  | EmptyString => [""]
  | String c s' =>
    if Ascii.eqb c sep then "" :: split_on sep s'
    else match split_on sep s' with
         | [] => [String c ""]
         | w :: ws => String c w :: ws
         end
  end.

Definition split (sep : ascii) (s : string) : list string := split_on sep s.

(** Ramda's [isEmpty] on the elements of a key path *)
Definition isEmpty (v : value) : bool :=
  match v with VString "" => true | _ => false end.

Definition reject {A} (p : A -> bool) (l : list A) : list A :=
  filter (fun a => negb (p a)) l.

(** Ramda's [chain] on arrays *)
Definition chain {A B} (f : A -> list B) (l : list A) : list B := flat_map f l.

(** ** [_choiceConfig(field)] *)

Definition _choiceConfig (definition : SchemaNode) (choices : ChoiceSet)
  (field : string) : jsv :=
  let breadcrumb := split "." field in
  let ancestors := removelast breadcrumb in
  let builtPath :=
    chain (fun option =>
             [VString option; VString "options"; choice_at choices option;
              VString "fields"]) ancestors
    ++ [VString (last breadcrumb "")] in
  path (reject isEmpty builtPath) (fields_to_js (node_fields definition)).

(** ** The body of the constructor's loop

    One entry [field], [value] of the argument is checked against the
    choices set so far and, when every check passes, stored. *)

Definition check_options (field : string) (v : value) (validOptions : jsv)
  : result unit :=
  match validOptions with
  | JSymbol STRING =>
    if negb (String.eqb (typeof v) "string")
    then Throw (InvalidChoice field v (Some "must be string"))
    else Ok tt
  | JSymbol NUMBER =>
    if negb (String.eqb (typeof v) "number")
    then Throw (InvalidChoice field v (Some "must be number"))
    else Ok tt
  | JObject props =>
    if negb (match v with VString s => contains s (keys props) | _ => false end)
    then Throw (InvalidChoice field v
                  (Some ("must be one of [" ++ join ", " (keys props) ++ "]")%string))
    else Ok tt
  | _ => Ok tt
  end.

(** [(choiceConfig.validation || always(true))(value)] *)
Definition check_validation (field : string) (v : value) (choiceConfig : jsv)
  : result unit :=
  match js_get choiceConfig "validation" with
  | JUndefined | JBoolean false =>  Ok tt
  | JFunction validationRule =>
    if negb (validationRule v) then Throw (InvalidChoice field v None) else Ok tt
  | _ => Throw TypeError
  end.

Definition validate (definition : SchemaNode) (choices : ChoiceSet)
  (field : string) (v : value) : result ChoiceSet :=
  reachable <- fields_of definition choices ;;
  if negb (contains field reachable) then Throw (InvalidField field)
  else
    let choiceConfig := _choiceConfig definition choices field in
    validOptions <- js_member choiceConfig "options" ;;
    _ <- check_options field v validOptions ;;
    _ <- check_validation field v choiceConfig ;;
    Ok (set field v choices).

(** The loop [Object.keys(values).forEach(...)], started from [choices]. *)
Fixpoint apply_entries (definition : SchemaNode) (values : obj value)
  (choices : ChoiceSet) : result ChoiceSet :=
  match values with
  | [] => Ok choices
  | (field, v) :: values' =>
    choices' <- validate definition choices field v ;;
    apply_entries definition values' choices'
  end.

(** [new GeneratedBuilder(values)], as the choices of the new instance *)
Definition construct (definition : SchemaNode) (values : obj value)
  : result ChoiceSet :=
  apply_entries definition values [].

(** [choose(field, value)] *)
Definition choose (definition : SchemaNode) (choices : ChoiceSet)
  (field : string) (v : value) : result ChoiceSet :=
  construct definition (merge choices [(field, v)]).

(** [get(field)] *)
Definition get (choices : ChoiceSet) (field : string) : value :=
  choice_at choices field.

(** [requires()] *)
Definition requires (definition : SchemaNode) : list string :=
  keys (filter (fun kv =>
                  match required (snd kv) with Some true => true | _ => false end)
               (node_fields definition)).

(** ** [options(field)] *)

Inductive option_space_view : Type :=
| ViewSymbol (l : OptionLiteral)
| ViewKeys (ks : list string)
| ViewUndefined.

(** Ramda's [prop] reads [obj[p]]; its later releases give [undefined] on a
    [null] or [undefined] object instead of throwing.  [prop_nil_safe] says
    which of the two the linked release does. *)
Definition prop (prop_nil_safe : bool) (p : string) (o : jsv) : result jsv :=
  match o with
  | JUndefined => if prop_nil_safe then Ok JUndefined else Throw TypeError
  | _ => Ok (js_get o p)
  end.

Definition options_of (prop_nil_safe : bool) (definition : SchemaNode)
  (choices : ChoiceSet) (field : string) : result option_space_view :=
  o <- prop prop_nil_safe "options" (_choiceConfig definition choices field) ;;
  Ok (match o with
      | JSymbol l => ViewSymbol l
      | JObject props => ViewKeys (keys props)
      | _ => ViewUndefined
      end).

(** ** [missing()] *)

(** Ramda's [keys]: the own keys of an object, nothing for anything else. *)
Definition js_keys (v : jsv) : list string :=
  match v with
  | JObject props => keys props
  | _ => []
  end.

(** [contains(f.options, values(OptionLiterals))] *)
Definition literalChoice (f : jsv) : result bool :=
  o <- js_member f "options" ;;
  Ok (match o with JSymbol _ => true | _ => false end).

Fixpoint reject_props (props : list (string * jsv)) : result (list (string * jsv)) :=
  match props with
  | [] => Ok []
  | (k, f) :: props' =>
    b <- literalChoice f ;;
    rest <- reject_props props' ;;
    Ok (if b then rest else (k, f) :: rest)
  end.

(** [keys(reject(literalChoice, fields))]: [reject] dispatches on its last
    argument, which throws on [undefined]; on a predicate it reads the
    element 0 the predicate does not have and hands it to [literalChoice]. *)
Definition nonLiteral_keys (fields : jsv) : result (list string) :=
  match fields with
  | JUndefined => Throw TypeError
  | JFunction _ => Throw TypeError
  | JObject props => kept <- reject_props props ;; Ok (keys kept)
  | _ => Ok []
  end.

Definition addBreadcrumb (choicePath field : string) : string :=
  if String.eqb choicePath "" then field else (choicePath ++ "." ++ field)%string.

Section Missing.
Variable definition : SchemaNode.
Variable choices : ChoiceSet.

Definition undefinedChoice (field : string) : bool :=
  is_undefined (choice_at choices field).

(** The field map [findMissingFor] looks at for one choice path *)
Definition level_fields (choicePath : string) : jsv :=
  let choice := choice_at choices choicePath in
  let config := _choiceConfig definition choices choicePath in
  if isNil choice then config
  else path [VString "options"; choice; VString "fields"] config.

(** [findMissingFor] calls itself on the choices made one level down; the
    recursion is counted by [fuel], and [None] says the count ran out. *)
Fixpoint findMissingFor (fuel : nat) (choicePaths : list string)
  : option (result (list string)) :=
  match choicePaths with
  | [] => Some (Ok [])
  | choicePath :: rest =>
    match fuel with
    | O => None
    | S fuel' =>
      let fields := level_fields choicePath in
      let fullChoicePaths := map (addBreadcrumb choicePath) in
      let missingChoices := filter undefinedChoice (fullChoicePaths (js_keys fields)) in
      match nonLiteral_keys fields with
      | Throw e => Some (Throw e)
      | Ok nonLiteralChoices =>
        let madeChoices :=
          filter (fun f => negb (undefinedChoice f)) (fullChoicePaths nonLiteralChoices) in
        match findMissingFor fuel' madeChoices with
        | None => None
        | Some (Throw e) => Some (Throw e)
        | Some (Ok deeper) =>
          match findMissingFor fuel' rest with
          | None => None
          | Some (Throw e) => Some (Throw e)
          | Some (Ok others) => Some (Ok ((missingChoices ++ deeper) ++ others))
          end
        end
      end
    end
  end.

Definition missing (fuel : nat) : option (result (list string)) :=
  findMissingFor fuel [""].
End Missing.

(** ** The schema of the worked scenario *)

Definition leaf (l : OptionLiteral) (req : option bool) : FieldSpec SchemaNode :=
  mkField (Literal l) req None.

Definition class_options : list (string * SchemaNode) :=
  [("warrior", Node []);
   ("mage", Node [("spell", leaf STRING (Some true))])].

Definition class_spec : FieldSpec SchemaNode :=
  mkField (Enumerated class_options) (Some true) None.

Definition character : SchemaNode :=
  Node [("name", leaf STRING (Some true)); ("class", class_spec)].


(** ** Instances in a store

    Each instance owns the object it creates as [this.choices]; the store
    holds these objects in allocation order and an instance is its index.
    A method runs in a store and leaves a store behind; a method that throws
    has still allocated and written what it did before throwing. *)

Definition store : Type := list ChoiceSet.
Definition instance : Type := nat.

Definition choices_of (h : store) (this : instance) : ChoiceSet := nth this h [].

Fixpoint write (h : store) (this : instance) (c : ChoiceSet) : store :=
  match h, this with
  | [], _ => []
  | _ :: h', O => c :: h'
  | c0 :: h', S n => c0 :: write h' n c
  end.

Module GeneratedBuilder.
Section Methods.
Variable definition : SchemaNode.

Definition fields (h : store) (this : instance) : result (list string) :=
  fields_of definition (choices_of h this).

Definition _choiceConfig (h : store) (this : instance) (field : string) : jsv :=
  _choiceConfig definition (choices_of h this) field.

(** The loop of the constructor: every entry is checked against
    [this.choices] as the store has it, then written into it. *)
Fixpoint forEach (values : obj value) (this : instance) (h : store)
  : result unit * store :=
  match values with
  | [] => (Ok tt, h)
  | (field, v) :: values' =>
    match validate definition (choices_of h this) field v with
    | Throw e => (Throw e, h)
    | Ok c => forEach values' this (write h this c)
    end
  end.

Definition constructor (values : obj value) (h : store)
  : result instance * store :=
  let this := length h in
  let h0 := h ++ [[]] in
  match forEach values this h0 with
  | (Ok _, h') => (Ok this, h')
  | (Throw e, h') => (Throw e, h')
  end.

(** [static createFrom(origin, config)]: [new this.prototype.constructor(config)] *)
Definition createFrom (origin : instance) (config : obj value) (h : store)
  : result instance * store :=
  constructor config h.

Definition requires : list string := requires definition.

Definition missing (fuel : nat) (h : store) (this : instance)
  : option (result (list string)) :=
  missing definition (choices_of h this) fuel.

Definition options (prop_nil_safe : bool) (h : store) (this : instance)
  (field : string) : result option_space_view :=
  options_of prop_nil_safe definition (choices_of h this) field.

Definition choose (this : instance) (field : string) (v : value) (h : store)
  : result instance * store :=
  constructor (merge (choices_of h this) [(field, v)]) h.

Definition get (h : store) (this : instance) (field : string) : value :=
  get (choices_of h this) field.
End Methods.
End GeneratedBuilder.

(** ** Notions the properties are stated with *)

(** The emission of [ideaFn]'s mapping function for one child field. *)
Definition emit (choices : ChoiceSet) (breadcrumb : list string)
  (kv : string * FieldSpec SchemaNode) : result (list string) :=
  let route := breadcrumb ++ [fst kv] in
  let choicePath := join "." route in
  match options (snd kv) with
  | Literal _ => Ok [choicePath]
  | Enumerated opts =>
    if is_undefined (choice_at choices choicePath) then Ok [choicePath]
    else match lookup (to_key (choice_at choices choicePath)) opts with
         | None => Throw TypeError
         | Some n => ideaFn choices n route
         end
  end.

(** The calls of [ideaFn] that [fields()] makes: the root, and below a
    visited node the node of the option chosen for an enumerated field. *)
Inductive visited (choices : ChoiceSet) (definition : SchemaNode)
  : SchemaNode -> list string -> Prop :=
| visited_root : visited choices definition definition []
| visited_option config breadcrumb key spec opts n :
    visited choices definition config breadcrumb ->
    In (key, spec) (node_fields config) ->
    options spec = Enumerated opts ->
    is_undefined (choice_at choices (join "." (breadcrumb ++ [key]))) = false ->
    lookup (to_key (choice_at choices (join "." (breadcrumb ++ [key])))) opts = Some n ->
    visited choices definition n (breadcrumb ++ [key]).

(** The type or membership check of the constructor, on a field
    specification of the schema. *)
Definition matches_options (spec : FieldSpec SchemaNode) (v : value) : bool :=
  match options spec with
  | Literal STRING => String.eqb (typeof v) "string"
  | Literal NUMBER => String.eqb (typeof v) "number"
  | Enumerated opts =>
    match v with VString s => contains s (keys opts) | _ => false end
  end.


(** The choices of an instance: an object on which the constructor's loop
    succeeds and which it gives back. *)
Definition Builder (definition : SchemaNode) (b : ChoiceSet) : Prop :=
  NoDup (keys b) /\ construct definition b = Ok b.

(** The nodes one step below a field map: the nodes of the options of its
    enumerated fields. *)
Definition option_nodes (spec : FieldSpec SchemaNode) : list SchemaNode :=
  match options spec with
  | Literal _ => []
  | Enumerated m => map snd m
  end.

Definition child_nodes (fields : list (string * FieldSpec SchemaNode))
  : list SchemaNode :=
  flat_map (fun kv => option_nodes (snd kv)) fields.

Fixpoint dotfree (s : string) : bool :=
  match s with
  | EmptyString => true
  | String c s' => negb (Ascii.eqb c ".") && dotfree s'
  end.

(** No field name of the schema holds the separator of paths. *)
Fixpoint dotfree_names (n : SchemaNode) : bool :=
  match n with
  | Node fields =>
    forallb (fun kv : string * FieldSpec SchemaNode =>
               dotfree (fst kv) &&
               match options (snd kv) with
               | Literal _ => true
               | Enumerated m => forallb (fun on => dotfree_names (snd on)) m
               end) fields
  end.

(** The schema of the counterexample: both options of "class" have a
    "level", of different types, and only "mage" has a "spell". *)
Definition adventurer : SchemaNode :=
  Node [("class",
         mkField (Enumerated
                    [("mage", Node [("level", leaf STRING None);
                                    ("spell", leaf STRING None)]);
                     ("warrior", Node [("level", leaf NUMBER None)])])
                 (Some true) None)].

Definition apprentice : ChoiceSet :=
  [("class", VString "mage");
   ("class.level", VString "apprentice");
   ("class.spell", VString "fireball")].

(** A schema three levels deep, with a root field named like a nested one. *)
Definition spell_of (name : string) : SchemaNode :=
  Node [("spell", mkField (Enumerated [(name, Node [])]) None None)].

Definition school_spec : FieldSpec SchemaNode :=
  mkField (Enumerated [("fire", spell_of "fireball"); ("ice", spell_of "frostbolt")])
          None None.

Definition academy : SchemaNode :=
  Node [("school", leaf STRING None);
        ("class", mkField (Enumerated [("mage", Node [("school", school_spec)])])
                          None None)].

Definition graduate : obj value :=
  [("school", VString "ice");
   ("class", VString "mage");
   ("class.school", VString "fire");
   ("class.school.spell", VString "frostbolt")].

(** [nonLiteralDefChoices], computed once when the class is generated: the
    root fields whose [options] is none of the [OptionLiterals]. *)
Definition nonLiteral (f : FieldSpec SchemaNode) : bool :=
  match options f with
  | Literal _ => false
  | Enumerated _ => true
  end.

Definition nonLiteralDefChoices (definition : SchemaNode) : list string :=
  keys (filter (fun kv => nonLiteral (snd kv)) (node_fields definition)).

(** ** Names a plain object treats specially

    A plain object answers [o[k]] for the members of [Object.prototype]
    without having the key, drops an assignment to "__proto__", and lists
    its array-index keys first.  The association lists of this development
    do none of this; the properties that would be affected are stated for
    the names below. *)

Definition prototype_members : list string :=
  ["__proto__"; "constructor"; "hasOwnProperty"; "isPrototypeOf";
   "propertyIsEnumerable"; "toLocaleString"; "toString"; "valueOf";
   "__defineGetter__"; "__defineSetter__"; "__lookupGetter__"; "__lookupSetter__"].

Definition is_digit (c : ascii) : bool :=
  (48 <=? nat_of_ascii c)%nat && (nat_of_ascii c <=? 57)%nat.

Fixpoint all_digits (s : string) : bool :=
  match s with
  | EmptyString => true
  | String c s' => is_digit c && all_digits s'
  end.

(** A canonical numeric string: digits, without a leading zero unless it is
    "0".  Every array index is one. *)
Definition array_index (s : string) : bool :=
  match s with
  | EmptyString => false
  | String c s' =>
    all_digits s && (negb (Ascii.eqb c "0") || String.eqb s' "")
  end.

(** A field name that is an ordinary own key wherever the code uses it. *)
Definition plain_name (s : string) : bool :=
  dotfree s && negb (String.eqb s "") && negb (array_index s)
  && negb (contains s prototype_members).

(** Every field name of the schema is plain. *)
Fixpoint plain_names (n : SchemaNode) : bool :=
  match n with
  | Node fields =>
    forallb (fun kv : string * FieldSpec SchemaNode =>
               plain_name (fst kv) &&
               match options (snd kv) with
               | Literal _ => true
               | Enumerated m => forallb (fun on => plain_names (snd on)) m
               end) fields
  end.

(** A path that [merge] adds as a new last key when it is not there. *)
Definition ordinary_key (p : string) : bool :=
  negb (array_index p) && negb (String.eqb p "__proto__").



(** An instance of [academy] two choices deep, and a schema whose "class"
    has a predicate of its own. *)
Definition novice : ChoiceSet :=
  [("class", VString "mage"); ("class.school", VString "fire")].



(** * Properties *)

(** ** Objects *)

Lemma lookup_set_same {A} (k : string) (v : A) (o : obj A) :
  lookup k (set k v o) = Some v.
Proof.
  induction o as [|[k' a] o IH]; simpl.
  - now rewrite String.eqb_refl.
  - destruct (String.eqb k k') eqn:E; simpl; rewrite E; auto.
Qed.

Lemma lookup_set_other {A} (k k0 : string) (v : A) (o : obj A) :
  k0 <> k -> lookup k0 (set k v o) = lookup k0 o.
Proof.
  intros Hne. induction o as [|[k' a] o IH]; simpl.
  - destruct (String.eqb k0 k) eqn:E; auto.
    apply String.eqb_eq in E. contradiction.
  - destruct (String.eqb k k') eqn:E; simpl.
    + apply String.eqb_eq in E. subst k'.
      destruct (String.eqb k0 k) eqn:E'; auto.
      apply String.eqb_eq in E'. contradiction.
    + now rewrite IH.
Qed.

Lemma lookup_None_keys {A} (k : string) (o : obj A) :
  lookup k o = None <-> ~ In k (keys o).
Proof.
  induction o as [|[k' a] o IH]; simpl.
  - tauto.
  - destruct (String.eqb k k') eqn:E.
    + apply String.eqb_eq in E. subst. split; [discriminate | tauto].
    + apply String.eqb_neq in E. rewrite IH. split.
      * intros H [H1|H1]; [congruence | tauto].
      * tauto.
Qed.

Lemma set_fresh {A} (k : string) (v : A) (o : obj A) :
  ~ In k (keys o) -> set k v o = o ++ [(k, v)].
Proof.
  induction o as [|[k' a] o IH]; simpl; intros H; auto.
  destruct (String.eqb k k') eqn:E.
  - apply String.eqb_eq in E. subst. tauto.
  - rewrite IH; tauto.
Qed.

Lemma keys_app {A} (o1 o2 : obj A) : keys (o1 ++ o2) = keys o1 ++ keys o2.
Proof. unfold keys. apply map_app. Qed.

Lemma keys_set {A} (k : string) (v : A) (o : obj A) :
  In k (keys o) -> keys (set k v o) = keys o.
Proof.
  induction o as [|[k' a] o IH]; simpl; intros H; [tauto|].
  destruct (String.eqb k k') eqn:E; simpl; auto.
  apply String.eqb_neq in E. f_equal. apply IH. destruct H; congruence.
Qed.

Lemma rebuild_nodup {A} (l acc : obj A) :
  NoDup (keys (acc ++ l)) ->
  fold_left (fun a kv => set (fst kv) (snd kv) a) l acc = acc ++ l.
Proof.
  revert acc. induction l as [|[k v] l IH]; intros acc H; simpl.
  - now rewrite app_nil_r.
  - rewrite set_fresh.
    + rewrite IH; rewrite <- app_assoc; auto.
    + rewrite keys_app in H. simpl in H.
      apply NoDup_remove_2 in H. intros Hin. apply H.
      apply in_or_app. now left.
Qed.

(** On an object (no key twice), merging one entry is setting it. *)
Lemma merge_single {A} (o : obj A) (k : string) (v : A) :
  NoDup (keys o) -> merge o [(k, v)] = set k v o.
Proof.
  intros H. unfold merge. simpl. now rewrite (rebuild_nodup o []).
Qed.

Lemma choice_at_set_same (c : ChoiceSet) k v : choice_at (set k v c) k = v.
Proof. unfold choice_at. now rewrite lookup_set_same. Qed.

Lemma choice_at_set_other (c : ChoiceSet) k k0 v :
  k0 <> k -> choice_at (set k v c) k0 = choice_at c k0.
Proof. intros. unfold choice_at. now rewrite lookup_set_other. Qed.

(** ** [fields()]: what one call of [ideaFn] emits *)

Lemma ideaFn_eq choices fields breadcrumb :
  ideaFn choices (Node fields) breadcrumb =
  (rs <- sequence (map (emit choices breadcrumb) fields) ;;
   Ok (join "." breadcrumb :: concat rs)).
Proof.
  simpl. f_equal. f_equal. apply map_ext. intros [key spec].
  unfold emit. simpl. destruct (options spec) as [l|opts]; auto.
  destruct (is_undefined _); auto.
  induction opts as [|[o n] opts IH]; simpl; auto.
  destruct (String.eqb _ o); auto.
Qed.

Lemma sequence_Ok_In {A} (f : A -> result (list string)) (l : list A) rs x :
  sequence (map f l) = Ok rs -> In x l ->
  exists r before after, f x = Ok r /\ concat rs = before ++ r ++ after.
Proof.
  revert rs. induction l as [|a l IH]; simpl; intros rs H Hin; [tauto|].
  destruct (f a) as [ra|e] eqn:Ea; simpl in H; [|discriminate].
  destruct (sequence (map f l)) as [rl|e] eqn:El; simpl in H; [|discriminate].
  injection H as <-. simpl. destruct Hin as [->|Hin].
  - exists ra, [], (concat rl). now rewrite Ea.
  - destruct (IH rl eq_refl Hin) as (r & b & a' & Hr & Hc).
    exists r, (ra ++ b), a'. split; auto. rewrite Hc. now rewrite app_assoc.
Qed.

(** A call of [ideaFn] always puts its own breadcrumb first. *)
Lemma ideaFn_head choices config breadcrumb l :
  ideaFn choices config breadcrumb = Ok l ->
  exists rest, l = join "." breadcrumb :: rest.
Proof.
  destruct config as [fields]. rewrite ideaFn_eq.
  destruct (sequence _) as [rs|e]; simpl; [|discriminate].
  intros H. injection H as <-. eauto.
Qed.

Lemma visited_segment choices definition config breadcrumb :
  visited choices definition config breadcrumb ->
  forall l, ideaFn choices definition [] = Ok l ->
  exists sub before after,
    ideaFn choices config breadcrumb = Ok sub /\ l = before ++ sub ++ after /\
    (breadcrumb <> [] -> before <> []).
Proof.
  induction 1 as [|config bc key spec opts n Hv IH Hin Hopt Hdef Hn]; intros l Hl.
  - exists l, [], []. rewrite app_nil_r. tauto.
  - destruct (IH l Hl) as (sub & b & a & Hsub & -> & _).
    destruct config as [fields]. rewrite ideaFn_eq in Hsub. simpl in Hin.
    destruct (sequence _) as [rs|e] eqn:Hs; simpl in Hsub; [|discriminate].
    injection Hsub as <-.
    destruct (sequence_Ok_In _ _ _ _ Hs Hin) as (r & b' & a' & Hr & Hc).
    unfold emit in Hr. simpl in Hr. rewrite Hopt, Hdef, Hn in Hr.
    exists r, (b ++ join "." bc :: b'), (a' ++ a). split; auto. split.
    + rewrite Hc. simpl. repeat (rewrite <- app_assoc; simpl). reflexivity.
    + intros _ H0. now apply app_eq_nil in H0 as [_ H0].
Qed.

Lemma emit_own_path choices breadcrumb key spec r :
  emit choices breadcrumb (key, spec) = Ok r ->
  In (join "." (breadcrumb ++ [key])) r.
Proof.
  unfold emit. simpl. destruct (options spec) as [lit|opts].
  - intros H. injection H as <-. now left.
  - destruct (is_undefined _).
    + intros H. injection H as <-. now left.
    + destruct (lookup _ opts) as [n|]; [|discriminate].
      intros H. apply ideaFn_head in H as [rest ->]. now left.
Qed.

Lemma child_in_fields definition choices l a spec_a opts o n k spec :
  fields_of definition choices = Ok l ->
  In (a, spec_a) (node_fields definition) ->
  options spec_a = Enumerated opts ->
  choice_at choices a = VString o ->
  lookup o opts = Some n ->
  In (k, spec) (node_fields n) ->
  In (a ++ "." ++ k)%string l.
Proof.
  intros Hl Ha Hopt Hc Ho Hk. unfold fields_of in Hl.
  destruct (ideaFn choices definition []) as [l0|] eqn:H0; simpl in Hl; [|discriminate].
  injection Hl as <-.
  assert (Hv : visited choices definition n ([] ++ [a])).
  { apply (visited_option choices definition definition [] a spec_a opts n);
      auto using visited_root.
    - change (join "." ([] ++ [a])) with a. now rewrite Hc.
    - change (join "." ([] ++ [a])) with a. now rewrite Hc. }
  destruct (visited_segment _ _ _ _ Hv l0 H0) as (sub & before & after & Hsub & -> & Hb).
  destruct before as [|x before]; [exfalso; apply Hb; [discriminate|reflexivity]|].
  simpl. apply in_or_app. right. apply in_or_app. left.
  destruct n as [fs]. rewrite ideaFn_eq in Hsub. simpl in Hk.
  destruct (sequence _) as [rs|] eqn:Hs; simpl in Hsub; [|discriminate].
  injection Hsub as <-. right.
  destruct (sequence_Ok_In _ _ _ _ Hs Hk) as (r & b' & a' & Hr & ->).
  apply emit_own_path in Hr. apply in_or_app. right. apply in_or_app. now left.
Qed.

(** ** C1: a chosen enumerated field stays in [fields()] *)

(** C1, as the code has it: [ideaFn] puts its breadcrumb at the head of what
    it returns, and only the root's empty breadcrumb is dropped afterwards.
    So for an enumerated field [p] with a recorded choice, reached by
    [fields()], the result contains [p] itself, directly followed by the
    paths of the chosen option's subtree; in the scenario, after choosing
    "mage" for "class", [fields()] is [["name"; "class"; "class.spell"]]. *)
Theorem fields_keeps_chosen_path :
  (forall definition choices l config breadcrumb key spec opts n,
      fields_of definition choices = Ok l ->
      visited choices definition config breadcrumb ->
      In (key, spec) (node_fields config) ->
      options spec = Enumerated opts ->
      let p := join "." (breadcrumb ++ [key]) in
      is_undefined (choice_at choices p) = false ->
      lookup (to_key (choice_at choices p)) opts = Some n ->
      exists subtree before after,
        ideaFn choices n (breadcrumb ++ [key]) = Ok (p :: subtree) /\
        l = before ++ p :: subtree ++ after) /\
  fields_of character [("class", VString "mage")]
  = Ok ["name"; "class"; "class.spell"].
Proof.
  split; [|reflexivity].
  intros definition choices l config bc key spec opts n Hl Hv Hin Hopt p Hdef Hn.
  unfold fields_of in Hl.
  destruct (ideaFn choices definition []) as [l0|e] eqn:H0; simpl in Hl; [|discriminate].
  injection Hl as <-.
  assert (Hv' : visited choices definition n (bc ++ [key]))
    by (eapply visited_option; eauto).
  destruct (visited_segment _ _ _ _ Hv' l0 H0) as (sub & b & a & Hsub & -> & Hb).
  destruct (ideaFn_head _ _ _ _ Hsub) as [rest ->].
  destruct b as [|x b].
  - exfalso. apply Hb; auto. intros E. now apply app_eq_nil in E as [_ E].
  - exists rest, b, a. split; auto.
Qed.

Lemma fields_keeps_chosen_path_witness :
  exists subtree before after,
    ideaFn [("class", VString "mage")]
           (Node [("spell", leaf STRING (Some true))]) ["class"]
    = Ok ("class" :: subtree) /\
    ["name"; "class"; "class.spell"] = before ++ "class" :: subtree ++ after.
Proof.
  refine (proj1 fields_keeps_chosen_path character [("class", VString "mage")]
            ["name"; "class"; "class.spell"] character [] "class"
            class_spec class_options _
            eq_refl (visited_root _ _) _ eq_refl eq_refl eq_refl).
  simpl. right. left. reflexivity.
Defined.

(** In the scenario, after choosing "mage" for "class", [fields()] is not
    [["name"; "class.spell"]]: it holds "class" as well. *)
Lemma fields_replaces_chosen_path_fails :
  choose character [] "class" (VString "mage") = Ok [("class", VString "mage")] /\
  fields_of character [("class", VString "mage")] <> Ok ["name"; "class.spell"] /\
  (exists l, fields_of character [("class", VString "mage")] = Ok l /\ In "class" l).
Proof.
  split; [reflexivity|]. split; [discriminate|].
  exists ["name"; "class"; "class.spell"]. split; [reflexivity|]. simpl. tauto.
Qed.

(** ** C9: what [missing()] reports has no recorded value *)

Lemma findMissingFor_undefined definition choices fuel :
  forall choicePaths l,
    findMissingFor definition choices fuel choicePaths = Some (Ok l) ->
    Forall (fun p => undefinedChoice choices p = true) l.
Proof.
  induction fuel as [|fuel IH]; intros [|choicePath rest] l H; simpl in H;
    try discriminate; try (injection H as <-; constructor).
  destruct (nonLiteral_keys _) as [nl|e]; [|discriminate].
  destruct (findMissingFor _ _ fuel (filter _ _)) as [[deeper|e]|] eqn:Hd;
    try discriminate.
  destruct (findMissingFor _ _ fuel rest) as [[others|e]|] eqn:Ho;
    try discriminate.
  injection H as <-.
  rewrite !Forall_app. repeat split; eauto.
  apply Forall_forall. intros p Hp. now apply filter_In in Hp.
Qed.

(** Once [missing()] returns within a recursion count, a larger count gives
    the same result. *)
Lemma findMissingFor_more_fuel definition choices fuel :
  forall choicePaths r fuel',
    findMissingFor definition choices fuel choicePaths = Some r ->
    fuel <= fuel' ->
    findMissingFor definition choices fuel' choicePaths = Some r.
Proof.
  induction fuel as [|fuel IH]; intros [|choicePath rest] r fuel' H Hle;
    simpl in H; try discriminate.
  - destruct fuel'; exact H.
  - destruct fuel'; exact H.
  - destruct fuel' as [|fuel']; [lia|]. simpl.
    destruct (nonLiteral_keys _) as [nl|e]; [|exact H].
    destruct (findMissingFor _ _ fuel (filter _ _)) as [d|] eqn:Hd; [|discriminate].
    rewrite (IH _ _ fuel' Hd) by lia.
    destruct d as [deeper|e]; [|exact H].
    destruct (findMissingFor _ _ fuel rest) as [o|] eqn:Ho; [|discriminate].
    rewrite (IH _ _ fuel' Ho) by lia. exact H.
Qed.

(** C9: whenever [missing()] returns, every path [p] it returns has
    [get(p) === undefined]: [missing()] reports no path with a recorded
    value. *)
Theorem missing_not_gettable definition choices fuel l p :
  missing definition choices fuel = Some (Ok l) ->
  In p l ->
  get choices p = VUndefined.
Proof.
  intros H Hin. apply findMissingFor_undefined in H.
  rewrite Forall_forall in H. specialize (H p Hin).
  unfold undefinedChoice, get in *. now destruct (choice_at choices p).
Qed.

Lemma missing_not_gettable_witness :
  missing character [("class", VString "mage")] 3
  = Some (Ok ["name"; "class.spell"]) /\
  get [("class", VString "mage")] "class.spell" = VUndefined.
Proof.
  split; [reflexivity|].
  apply (missing_not_gettable character [("class", VString "mage")] 3
           ["name"; "class.spell"] "class.spell" eq_refl).
  simpl. tauto.
Defined.

(** ** The constructor's loop *)

Lemma validate_Ok definition choices field v c :
  validate definition choices field v = Ok c ->
  c = set field v choices /\
  exists reachable,
    fields_of definition choices = Ok reachable /\ contains field reachable = true.
Proof.
  unfold validate. intros H.
  destruct (fields_of definition choices) as [fs|e]; simpl in H; [|discriminate].
  destruct (contains field fs) eqn:Hc; simpl in H; [|discriminate].
  destruct (js_member _ _) as [o|e]; simpl in H; [|discriminate].
  destruct (check_options _ _ _) as [u|e]; simpl in H; [|discriminate].
  destruct (check_validation _ _ _) as [u'|e]; simpl in H; [|discriminate].
  injection H as <-. eauto.
Qed.

Lemma apply_entries_app definition l1 l2 choices :
  apply_entries definition (l1 ++ l2) choices =
  (c <- apply_entries definition l1 choices ;; apply_entries definition l2 c).
Proof.
  revert choices. induction l1 as [|[f v] l1 IH]; intros choices; simpl; auto.
  destruct (validate definition choices f v); simpl; auto.
Qed.

Lemma keys_set_incl {A} (k : string) (v : A) (o : obj A) x :
  In x (keys (set k v o)) <-> x = k \/ In x (keys o).
Proof.
  induction o as [|[k' a] o IH]; simpl.
  - intuition congruence.
  - destruct (String.eqb k k') eqn:E; simpl.
    + apply String.eqb_eq in E. subst. intuition congruence.
    + rewrite IH. tauto.
Qed.

Lemma NoDup_keys_set {A} (k : string) (v : A) (o : obj A) :
  NoDup (keys o) -> NoDup (keys (set k v o)).
Proof.
  induction o as [|[k' a] o IH]; simpl; intros H.
  - repeat constructor. tauto.
  - inversion H as [|? ? Hn Hd]; subst.
    destruct (String.eqb k k') eqn:E; simpl.
    + now constructor.
    + apply String.eqb_neq in E. constructor; auto.
      rewrite keys_set_incl. intros [->|]; tauto.
Qed.

Lemma NoDup_keys_merge {A} (l r : obj A) : NoDup (keys (merge l r)).
Proof.
  unfold merge.
  assert (H : forall (x acc : obj A), NoDup (keys acc) ->
              NoDup (keys (fold_left (fun a kv => set (fst kv) (snd kv) a) x acc))).
  { induction x as [|[k v] x IH]; simpl; intros acc Ha; auto.
    apply IH. now apply NoDup_keys_set. }
  apply H. apply H. constructor.
Qed.

(** Applied to an object, the loop stores the entries one after the other in
    the object's order, so a constructed instance holds exactly its argument. *)
Lemma apply_entries_fresh definition values :
  forall choices c,
    NoDup (keys (choices ++ values)) ->
    apply_entries definition values choices = Ok c ->
    c = choices ++ values.
Proof.
  induction values as [|[f v] values IH]; intros choices c Hnd H; simpl in H.
  - injection H as <-. now rewrite app_nil_r.
  - destruct (validate definition choices f v) as [c1|e] eqn:Hv; simpl in H;
      [|discriminate].
    apply validate_Ok in Hv as [-> _].
    assert (Hf : ~ In f (keys choices)).
    { rewrite keys_app in Hnd. simpl in Hnd. apply NoDup_remove_2 in Hnd.
      intros Hin. apply Hnd. apply in_or_app. now left. }
    rewrite (set_fresh _ _ _ Hf) in H.
    apply IH in H; [now rewrite <- app_assoc in H|].
    now rewrite <- app_assoc.
Qed.

Lemma construct_fresh definition values c :
  NoDup (keys values) -> construct definition values = Ok c -> c = values.
Proof. intros Hnd H. now apply (apply_entries_fresh definition values [] c). Qed.

(** ** Instances in the store: what a method touches *)

Lemma write_length h this c : length (write h this c) = length h.
Proof.
  revert this. induction h as [|c0 h IH]; intros [|n]; simpl; auto.
Qed.

Lemma choices_of_write_same h this c :
  this < length h -> choices_of (write h this c) this = c.
Proof.
  unfold choices_of. revert this.
  induction h as [|c0 h IH]; intros [|n] H; simpl in *; try lia; auto.
  apply IH. lia.
Qed.

Lemma choices_of_write_other h this c other :
  other <> this -> choices_of (write h this c) other = choices_of h other.
Proof.
  unfold choices_of. revert this other.
  induction h as [|c0 h IH]; intros [|n] [|m] H; simpl; auto; try congruence.
Qed.

Lemma forEach_spec definition values :
  forall this h r h',
    this < length h ->
    GeneratedBuilder.forEach definition values this h = (r, h') ->
    length h' = length h /\
    (forall other, other <> this -> choices_of h' other = choices_of h other) /\
    r = (c <- apply_entries definition values (choices_of h this) ;; Ok tt) /\
    (forall c, apply_entries definition values (choices_of h this) = Ok c ->
               choices_of h' this = c).
Proof.
  induction values as [|[f v] values IH]; intros this h r h' Hlt H; simpl in H.
  - injection H as <- <-. simpl. repeat split; auto. intros c Hc. now injection Hc.
  - simpl. destruct (validate definition (choices_of h this) f v) as [c1|e] eqn:Hv.
    + apply IH in H; [|now rewrite write_length].
      destruct H as (Hlen & Hfr & Hr & Hc).
      rewrite write_length in Hlen.
      rewrite choices_of_write_same in Hr, Hc by assumption.
      simpl. repeat split; auto.
      intros other Ho. rewrite Hfr by assumption.
      now apply choices_of_write_other.
    + injection H as <- <-. simpl. repeat split; auto. discriminate.
Qed.

Lemma choices_of_app_old (h : store) extra this :
  this < length h -> choices_of (h ++ extra) this = choices_of h this.
Proof. intros H. unfold choices_of. now apply app_nth1. Qed.

Lemma choices_of_app_new (h : store) c :
  choices_of (h ++ [c]) (length h) = c.
Proof. unfold choices_of. rewrite app_nth2, Nat.sub_diag; auto. Qed.

(** A call of the constructor allocates one instance, the next index; it
    leaves every instance the store already has as it was, and returns what
    the loop over the argument returns. *)
Lemma constructor_spec definition values h r h' :
  GeneratedBuilder.constructor definition values h = (r, h') ->
  length h' = S (length h) /\
  (forall other, other < length h -> choices_of h' other = choices_of h other) /\
  r = (c <- construct definition values ;; Ok (length h)) /\
  (forall c, construct definition values = Ok c -> choices_of h' (length h) = c).
Proof.
  unfold GeneratedBuilder.constructor, construct. intros H.
  destruct (GeneratedBuilder.forEach definition values (length h) (h ++ [[]]))
    as [r0 h0] eqn:Hf.
  apply forEach_spec in Hf; [|rewrite length_app; simpl; lia].
  rewrite choices_of_app_new in Hf. destruct Hf as (Hlen & Hfr & Hr & Hc).
  rewrite length_app in Hlen. simpl in Hlen.
  assert (Hh : h' = h0) by (destruct r0; now injection H).
  subst h0. repeat split; auto; try lia.
  - intros other Ho. rewrite Hfr by lia. now apply choices_of_app_old.
  - subst r0. destruct (apply_entries definition values []); simpl in *;
      now injection H.
Qed.

(** ** A failing [choose] or constructor call changes no instance *)

(** X22: when the constructor's loop fails on the merged choices with [e],
    [choose] throws [e] and returns no instance, and every instance the
    store holds, the receiver among them, has the choices it had: [get],
    [fields] and [missing] answer on it as before.  The same holds for a
    failing call of the constructor. *)
Theorem failed_choose_changes_nothing definition h this field v e :
  this < length h ->
  choose definition (choices_of h this) field v = Throw e ->
  (exists h',
      GeneratedBuilder.choose definition this field v h = (Throw e, h') /\
      (forall other, other < length h -> choices_of h' other = choices_of h other) /\
      (forall q, GeneratedBuilder.get h' this q = GeneratedBuilder.get h this q) /\
      GeneratedBuilder.fields definition h' this = GeneratedBuilder.fields definition h this /\
      (forall fuel, GeneratedBuilder.missing definition fuel h' this
                    = GeneratedBuilder.missing definition fuel h this)) /\
  (forall values e',
      construct definition values = Throw e' ->
      exists h',
        GeneratedBuilder.constructor definition values h = (Throw e', h') /\
        (forall other, other < length h -> choices_of h' other = choices_of h other)).
Proof.
  intros Hlt Hfail. split.
  - unfold GeneratedBuilder.choose, choose in *.
    destruct (GeneratedBuilder.constructor definition
                (merge (choices_of h this) [(field, v)]) h) as [r h'] eqn:Hc.
    apply constructor_spec in Hc as (_ & Hfr & Hr & _).
    rewrite Hfail in Hr. simpl in Hr. subst r.
    exists h'. split; auto. split; auto.
    unfold GeneratedBuilder.get, GeneratedBuilder.fields, GeneratedBuilder.missing.
    rewrite (Hfr this Hlt). auto.
  - intros values e' Hv.
    destruct (GeneratedBuilder.constructor definition values h) as [r h'] eqn:Hc.
    apply constructor_spec in Hc as (_ & Hfr & Hr & _).
    rewrite Hv in Hr. simpl in Hr. subst r. eauto.
Qed.

Lemma failed_choose_changes_nothing_witness :
  exists h',
    GeneratedBuilder.choose character 0 "class" (VString "rogue")
      [[("name", VString "Ragnar")]]
    = (Throw (InvalidChoice "class" (VString "rogue")
                (Some "must be one of [warrior, mage]")), h') /\
    choices_of h' 0 = [("name", VString "Ragnar")].
Proof.
  assert (H0 : 0 < length [[("name", VString "Ragnar")]]) by (simpl; lia).
  destruct (proj1 (failed_choose_changes_nothing character
              [[("name", VString "Ragnar")]] 0 "class" (VString "rogue")
              (InvalidChoice "class" (VString "rogue")
                 (Some "must be one of [warrior, mage]")) H0 eq_refl))
    as (h' & Hc & Hfr & _).
  exists h'. split; [exact Hc|]. exact (Hfr 0 H0).
Defined.

(** ** C6: [choose] leaves its receiver alone *)

(** C6: after [b2 = b1.choose(p, v)] succeeds, [b1.get(p)] is what it was
    before the call; [b2] is a new instance holding the merged choices, and
    whatever is chosen afterwards on either of the two leaves the choices of
    both as they are, so the queries of one never see the other. *)
Theorem choose_leaves_receiver definition h b1 p v b2 h' :
  b1 < length h ->
  GeneratedBuilder.choose definition b1 p v h = (Ok b2, h') ->
  GeneratedBuilder.get h' b1 p = GeneratedBuilder.get h b1 p /\
  choices_of h' b1 = choices_of h b1 /\
  b2 <> b1 /\ b2 < length h' /\
  choices_of h' b2 = merge (choices_of h b1) [(p, v)] /\
  (forall this q w r h'',
      this = b1 \/ this = b2 ->
      GeneratedBuilder.choose definition this q w h' = (r, h'') ->
      choices_of h'' b1 = choices_of h' b1 /\
      choices_of h'' b2 = choices_of h' b2).
Proof.
  intros Hlt Hc. unfold GeneratedBuilder.choose in Hc.
  apply constructor_spec in Hc as (Hlen & Hfr & Hr & Hnew).
  destruct (construct definition (merge (choices_of h b1) [(p, v)]))
    as [c|e] eqn:Hcon; simpl in Hr; [|discriminate].
  injection Hr as ->.
  assert (Hc2 : choices_of h' (length h) = merge (choices_of h b1) [(p, v)]).
  { rewrite (Hnew c eq_refl).
    apply construct_fresh in Hcon; auto. apply NoDup_keys_merge. }
  split; [unfold GeneratedBuilder.get; now rewrite (Hfr b1 Hlt)|].
  split; [exact (Hfr b1 Hlt)|].
  split; [lia|]. split; [lia|]. split; [exact Hc2|].
  intros this q w r h'' _ H. unfold GeneratedBuilder.choose in H.
  apply constructor_spec in H as (_ & Hfr' & _).
  split; apply Hfr'; lia.
Qed.

Lemma choose_leaves_receiver_witness :
  GeneratedBuilder.get
    [[("name", VString "Ragnar")]; [("name", VString "Ragnar"); ("class", VString "mage")]]
    0 "class"
  = GeneratedBuilder.get [[("name", VString "Ragnar")]] 0 "class".
Proof.
  assert (H0 : 0 < length [[("name", VString "Ragnar")]]) by (simpl; lia).
  exact (proj1 (choose_leaves_receiver character [[("name", VString "Ragnar")]]
                  0 "class" (VString "mage") 1
                  [[("name", VString "Ragnar")];
                   [("name", VString "Ragnar"); ("class", VString "mage")]]
                  H0 eq_refl)).
Defined.

(** ** The checks of the loop body *)

Lemma keys_map_snd {A B} (f : A -> B) (o : obj A) :
  keys (map (fun kv => (fst kv, f (snd kv))) o) = keys o.
Proof. unfold keys. rewrite map_map. now apply map_ext. Qed.

Lemma spec_options_js (spec : FieldSpec SchemaNode) :
  js_member (spec_to_js node_to_js spec) "options" =
  Ok (match options spec with
      | Literal l => JSymbol l
      | Enumerated m => JObject (map (fun on => (fst on, node_to_js (snd on))) m)
      end).
Proof. reflexivity. Qed.



Lemma construct_Builder definition values b :
  NoDup (keys values) -> construct definition values = Ok b -> Builder definition b.
Proof.
  intros Hnd H. pose proof (construct_fresh _ _ _ Hnd H) as ->. now split.
Qed.

Lemma choose_Builder definition b field v b' :
  choose definition b field v = Ok b' -> Builder definition b'.
Proof. apply construct_Builder. apply NoDup_keys_merge. Qed.

(** The constructor raises what the loop body raises at the first entry that
    fails, after storing the entries before it. *)
Lemma construct_prefix definition pre field v post :
  construct definition (pre ++ (field, v) :: post) =
  (choices <- construct definition pre ;;
   c <- validate definition choices field v ;;
   apply_entries definition post c).
Proof. unfold construct. now rewrite apply_entries_app. Qed.

(** Choosing a field with no recorded value runs the loop body on the
    receiver's choices. *)
Lemma choose_unrecorded definition b field v :
  Builder definition b -> ~ In field (keys b) ->
  choose definition b field v = validate definition b field v.
Proof.
  intros [Hnd Hb] Hf. unfold choose.
  rewrite merge_single, set_fresh by assumption.
  rewrite (construct_prefix definition b field v []), Hb. simpl.
  now destruct (validate definition b field v).
Qed.

(** ** Induction over a schema, and [fields()] as choices are added *)

Lemma SchemaNode_children_ind (P : SchemaNode -> Prop) :
  (forall fields, Forall P (child_nodes fields) -> P (Node fields)) ->
  forall n, P n.
Proof.
  intros H. fix IH 1. intros [fields]. apply H.
  induction fields as [|[k [os req val]] fields IHf]; simpl.
  - constructor.
  - apply Forall_app. split; [|exact IHf].
    unfold option_nodes. simpl. destruct os as [l|m]; [constructor|].
    induction m as [|[o n] m IHm]; simpl; constructor; [apply IH | exact IHm].
Qed.

Lemma SchemaNode_nested_ind (P : SchemaNode -> Prop) :
  (forall fields,
      (forall key spec opts o n,
          In (key, spec) fields -> options spec = Enumerated opts ->
          In (o, n) opts -> P n) ->
      P (Node fields)) ->
  forall n, P n.
Proof.
  intros H. apply SchemaNode_children_ind. intros fields Hall. apply H.
  intros key spec opts o n Hin Hopt Hin'.
  rewrite Forall_forall in Hall. apply Hall.
  unfold child_nodes. apply in_flat_map. exists (key, spec). split; auto.
  unfold option_nodes. simpl. rewrite Hopt.
  apply in_map_iff. exists (o, n). auto.
Qed.

Lemma lookup_In {A} k (o : obj A) a : lookup k o = Some a -> In (k, a) o.
Proof.
  induction o as [|[k' a'] o IH]; simpl; [discriminate|].
  destruct (String.eqb k k') eqn:E.
  - apply String.eqb_eq in E. intros H. injection H as ->. subst. now left.
  - intros H. right. auto.
Qed.

Lemma sequence_incl {A} (g1 g2 : A -> result (list string)) (l : list A) :
  (forall x r1 r2, In x l -> g1 x = Ok r1 -> g2 x = Ok r2 -> incl r1 r2) ->
  forall rs1 rs2,
    sequence (map g1 l) = Ok rs1 -> sequence (map g2 l) = Ok rs2 ->
    incl (concat rs1) (concat rs2).
Proof.
  induction l as [|a l IH]; simpl; intros H rs1 rs2 H1 H2.
  - injection H1 as <-. injection H2 as <-. apply incl_refl.
  - destruct (g1 a) as [r1|] eqn:E1; simpl in H1; [|discriminate].
    destruct (sequence (map g1 l)) as [t1|]; simpl in H1; [|discriminate].
    destruct (g2 a) as [r2|] eqn:E2; simpl in H2; [|discriminate].
    destruct (sequence (map g2 l)) as [t2|]; simpl in H2; [|discriminate].
    injection H1 as <-. injection H2 as <-. simpl.
    apply incl_app_app; eauto.
Qed.

(** Recording a value for a path that had none only adds to what [ideaFn]
    returns. *)
Lemma ideaFn_set_mono choices f v :
  choice_at choices f = VUndefined ->
  forall config breadcrumb l1 l2,
    ideaFn choices config breadcrumb = Ok l1 ->
    ideaFn (set f v choices) config breadcrumb = Ok l2 ->
    incl l1 l2 /\ incl (tl l1) (tl l2).
Proof.
  intros Hf config. induction config as [fields IH] using SchemaNode_nested_ind.
  intros bc l1 l2. rewrite !ideaFn_eq.
  destruct (sequence (map (emit choices bc) fields)) as [rs1|] eqn:E1;
    simpl; [|discriminate].
  destruct (sequence (map (emit (set f v choices) bc) fields)) as [rs2|] eqn:E2;
    simpl; [|discriminate].
  intros H1 H2. injection H1 as <-. injection H2 as <-.
  assert (Hc : incl (concat rs1) (concat rs2)).
  { refine (sequence_incl _ _ fields _ rs1 rs2 E1 E2).
    intros [key spec] r1 r2 Hin. unfold emit. simpl.
    destruct (options spec) as [lit|opts] eqn:Hopt.
    - intros G1 G2. injection G1 as <-. injection G2 as <-. apply incl_refl.
    - set (cp := join "." (bc ++ [key])).
      destruct (String.eqb cp f) eqn:Ecp.
      + apply String.eqb_eq in Ecp. rewrite Ecp, Hf, choice_at_set_same. simpl.
        intros G1. injection G1 as <-.
        destruct (is_undefined v).
        * intros G2. injection G2 as <-. apply incl_refl.
        * destruct (lookup (to_key v) opts) as [n|]; [|discriminate].
          intros G2. apply ideaFn_head in G2 as [rest ->].
          fold cp. rewrite Ecp. intros x [<-|[]]. now left.
      + apply String.eqb_neq in Ecp. rewrite choice_at_set_other by assumption.
        destruct (is_undefined (choice_at choices cp)).
        * intros G1 G2. injection G1 as <-. injection G2 as <-. apply incl_refl.
        * destruct (lookup (to_key (choice_at choices cp)) opts) as [n|] eqn:Hn;
            [|discriminate].
          apply lookup_In in Hn. intros G1 G2.
          exact (proj1 (IH key spec opts _ n Hin Hopt Hn _ _ _ G1 G2)). }
  split; [|exact Hc].
  apply incl_cons; [now left|]. now apply incl_tl.
Qed.

Lemma fields_of_set_mono definition choices f v l1 l2 :
  choice_at choices f = VUndefined ->
  fields_of definition choices = Ok l1 ->
  fields_of definition (set f v choices) = Ok l2 ->
  incl l1 l2.
Proof.
  unfold fields_of. intros Hf H1 H2.
  destruct (ideaFn choices definition []) as [a1|] eqn:E1; simpl in H1; [|discriminate].
  destruct (ideaFn (set f v choices) definition []) as [a2|] eqn:E2; simpl in H2;
    [|discriminate].
  injection H1 as <-. injection H2 as <-.
  exact (proj2 (ideaFn_set_mono _ _ _ Hf _ _ _ _ E1 E2)).
Qed.

Lemma contains_In s l : contains s l = true <-> In s l.
Proof.
  unfold contains. rewrite existsb_exists. split.
  - intros (x & Hx & E). apply String.eqb_eq in E. now subst.
  - intros H. exists s. split; auto. apply String.eqb_refl.
Qed.

Lemma choice_at_unrecorded (c : ChoiceSet) f :
  ~ In f (keys c) -> choice_at c f = VUndefined.
Proof.
  intros H. apply lookup_None_keys in H. unfold choice_at. now rewrite H.
Qed.

Lemma NoDup_keys_head {A} (c : obj A) f v rest :
  NoDup (keys (c ++ (f, v) :: rest)) ->
  ~ In f (keys c) /\ NoDup (keys ((c ++ [(f, v)]) ++ rest)).
Proof.
  intros H. split.
  - rewrite keys_app in H. simpl in H. apply NoDup_remove_2 in H.
    intros Hin. apply H. apply in_or_app. now left.
  - now rewrite <- app_assoc.
Qed.

(** While the loop runs, what [fields()] returns only grows. *)
Lemma apply_entries_mono definition values :
  forall c b l0 l,
    NoDup (keys (c ++ values)) ->
    apply_entries definition values c = Ok b ->
    fields_of definition c = Ok l0 ->
    fields_of definition b = Ok l ->
    incl l0 l.
Proof.
  induction values as [|[f v] values IH]; intros c b l0 l Hnd H H0 Hl; simpl in H.
  - injection H as <-. rewrite H0 in Hl. injection Hl as <-. apply incl_refl.
  - destruct (validate definition c f v) as [c1|] eqn:Hv; simpl in H; [|discriminate].
    apply validate_Ok in Hv as [-> _].
    apply NoDup_keys_head in Hnd as [Hf Hnd].
    rewrite (set_fresh _ _ _ Hf) in *.
    destruct (fields_of definition (c ++ [(f, v)])) as [l1|e] eqn:H1.
    + apply incl_tran with l1.
      * rewrite <- (set_fresh _ _ _ Hf) in H1.
        eapply fields_of_set_mono; eauto. now apply choice_at_unrecorded.
      * eapply IH; eauto.
    + destruct values as [|[f' v'] values]; simpl in H.
      * injection H as <-. congruence.
      * unfold validate in H. rewrite H1 in H. discriminate.
Qed.

Lemma apply_entries_reachable definition values :
  forall c b l,
    NoDup (keys (c ++ values)) ->
    apply_entries definition values c = Ok b ->
    fields_of definition b = Ok l ->
    forall k, In k (keys values) -> In k l.
Proof.
  induction values as [|[f v] values IH]; intros c b l Hnd H Hl k Hk; simpl in *.
  - tauto.
  - destruct (validate definition c f v) as [c1|] eqn:Hv; simpl in H; [|discriminate].
    pose proof Hv as Hv'.
    apply validate_Ok in Hv' as [-> (l0 & H0 & Hc)].
    pose proof (NoDup_keys_head _ _ _ _ Hnd) as [Hf Hnd'].
    destruct Hk as [<-|Hk].
    + apply contains_In in Hc.
      refine (apply_entries_mono definition ((f, v) :: values) c b l0 l Hnd _ H0 Hl f Hc).
      simpl. now rewrite Hv.
    + rewrite (set_fresh _ _ _ Hf) in H. eapply IH; eauto.
Qed.

(** Every path an instance records is among the fields it reports. *)
Lemma Builder_keys_reachable definition b l :
  Builder definition b -> fields_of definition b = Ok l ->
  forall k, In k (keys b) -> In k l.
Proof.
  intros [Hnd Hb] Hl. exact (apply_entries_reachable definition b [] b l Hnd Hb Hl).
Qed.

Lemma validate_unreachable definition choices field v reachable :
  fields_of definition choices = Ok reachable ->
  contains field reachable = false ->
  validate definition choices field v = Throw (InvalidField field).
Proof. intros Hf Hc. unfold validate. rewrite Hf. simpl. now rewrite Hc. Qed.


(** ** Paths and their parents *)

Lemma string_app_assoc (a b c : string) :
  ((a ++ b) ++ c)%string = (a ++ b ++ c)%string.
Proof. induction a as [|x a IH]; simpl; auto. now rewrite IH. Qed.

Lemma join_snoc pre key :
  pre <> [] -> join "." (pre ++ [key]) = (join "." pre ++ "." ++ key)%string.
Proof.
  induction pre as [|x pre IH]; [congruence|]. intros _.
  destruct pre as [|y pre].
  - reflexivity.
  - change (join "." ((x :: y :: pre) ++ [key]))
      with (x ++ "." ++ join "." ((y :: pre) ++ [key]))%string.
    rewrite IH by discriminate.
    change (join "." (x :: y :: pre)) with (x ++ "." ++ join "." (y :: pre))%string.
    rewrite !string_app_assoc. reflexivity.
Qed.

Lemma dotfree_app_dot x y : dotfree (x ++ "." ++ y) = false.
Proof.
  induction x as [|c x IH]; [reflexivity|].
  simpl in *. rewrite IH. apply andb_false_r.
Qed.

Lemma append_dot_inj x x' y y' :
  dotfree y = true -> dotfree y' = true ->
  (x ++ "." ++ y)%string = (x' ++ "." ++ y')%string ->
  x = x' /\ y = y'.
Proof.
  intros Hy Hy'. revert x'.
  induction x as [|c x IH]; intros [|c' x'] H; cbn [append] in H.
  - injection H as ->. auto.
  - injection H as <- ->.
    pose proof (dotfree_app_dot x' y') as D. cbn [append] in D. congruence.
  - injection H as -> <-.
    pose proof (dotfree_app_dot x y) as D. cbn [append] in D. congruence.
  - injection H as -> H. apply IH in H as [-> ->]. auto.
Qed.

Lemma sequence_concat_In {A} (g : A -> result (list string)) (l : list A) rs p :
  sequence (map g l) = Ok rs -> In p (concat rs) ->
  exists x r, In x l /\ g x = Ok r /\ In p r.
Proof.
  revert rs. induction l as [|a l IH]; simpl; intros rs H Hp.
  - injection H as <-. destruct Hp.
  - destruct (g a) as [ra|] eqn:Ea; simpl in H; [|discriminate].
    destruct (sequence (map g l)) as [rl|]; simpl in H; [|discriminate].
    injection H as <-. simpl in Hp. apply in_app_or in Hp as [Hp|Hp].
    + exists a, ra. auto.
    + destruct (IH rl eq_refl Hp) as (x & r & Hx & Hr & Hin). exists x, r. auto.
Qed.

(** Below the breadcrumb's own children, [ideaFn] only emits children of
    paths that have a recorded choice. *)
Lemma ideaFn_parents choices config :
  dotfree_names config = true ->
  forall breadcrumb l,
    ideaFn choices config breadcrumb = Ok l ->
    forall p, In p (tl l) ->
    exists pre key,
      p = join "." (pre ++ [key]) /\ dotfree key = true /\
      (pre = breadcrumb \/
       (pre <> [] /\ is_undefined (choice_at choices (join "." pre)) = false)).
Proof.
  induction config as [fields IH] using SchemaNode_nested_ind.
  intros Hwf bc l. rewrite ideaFn_eq.
  destruct (sequence _) as [rs|] eqn:Hs; simpl; [|discriminate].
  intros H. injection H as <-. simpl. intros p Hp.
  destruct (sequence_concat_In _ _ _ _ Hs Hp) as ([key spec] & r & Hin & Hr & Hpr).
  simpl in Hwf. rewrite forallb_forall in Hwf.
  specialize (Hwf _ Hin). simpl in Hwf. apply andb_prop in Hwf as [Hkey Hopts].
  unfold emit in Hr. simpl in Hr.
  destruct (options spec) as [lit|opts] eqn:Hopt.
  - injection Hr as <-. destruct Hpr as [<-|[]]. exists bc, key. auto.
  - destruct (is_undefined (choice_at choices (join "." (bc ++ [key])))) eqn:Hu.
    + injection Hr as <-. destruct Hpr as [<-|[]]. exists bc, key. auto.
    + destruct (lookup _ opts) as [n|] eqn:Hn; [|discriminate].
      apply lookup_In in Hn.
      pose proof (ideaFn_head _ _ _ _ Hr) as [rest ->].
      destruct Hpr as [<-|Hpr].
      * exists bc, key. auto.
      * rewrite forallb_forall in Hopts. specialize (Hopts _ Hn). simpl in Hopts.
        destruct (IH key spec opts _ n Hin Hopt Hn Hopts _ _ Hr p Hpr)
          as (pre & key' & -> & Hk' & [->|Hpre]).
        -- exists (bc ++ [key]), key'. split; auto. split; auto. right. split; auto.
           intros E. now apply app_eq_nil in E as [_ E].
        -- exists pre, key'. auto.
Qed.

(** A reachable path [a.k] has a recorded choice at [a]. *)
Lemma fields_parent_recorded definition choices l a k :
  dotfree_names definition = true ->
  fields_of definition choices = Ok l ->
  dotfree k = true ->
  In (a ++ "." ++ k)%string l ->
  is_undefined (choice_at choices a) = false.
Proof.
  intros Hwf Hl Hk Hin. unfold fields_of in Hl.
  destruct (ideaFn choices definition []) as [l0|] eqn:H0; simpl in Hl; [|discriminate].
  injection Hl as <-.
  destruct (ideaFn_parents _ _ Hwf _ _ H0 _ Hin) as (pre & key & E & Hkey & Hpre).
  destruct pre as [|x pre].
  - change (join "." ([] ++ [key])) with key in E.
    pose proof (dotfree_app_dot a k) as D. congruence.
  - rewrite join_snoc in E by discriminate.
    apply append_dot_inj in E as [-> ->]; auto.
    destruct Hpre as [Hpre|[_ Hpre]]; [discriminate|exact Hpre].
Qed.

(** ** Plain names *)

Lemma plain_name_dotfree s : plain_name s = true -> dotfree s = true /\ s <> "".
Proof.
  unfold plain_name. intros H.
  apply andb_prop in H as [H _]. apply andb_prop in H as [H _].
  apply andb_prop in H as [H1 H2]. split; auto.
  intros ->. discriminate.
Qed.

Lemma plain_names_dotfree n : plain_names n = true -> dotfree_names n = true.
Proof.
  induction n as [fields IH] using SchemaNode_nested_ind. simpl.
  rewrite !forallb_forall. intros H [key spec] Hin.
  specialize (H _ Hin). simpl in *. apply andb_prop in H as [Hk Ho].
  apply plain_name_dotfree in Hk as [Hk _]. rewrite Hk. simpl.
  destruct (options spec) as [lit|opts] eqn:Hopt; auto.
  rewrite forallb_forall in *. intros [o n] Hon. simpl.
  exact (IH key spec opts o n Hin Hopt Hon (Ho _ Hon)).
Qed.


(** ** C8: the constructor takes the entries in order *)

Lemma NoDup_keys_later {A} (pre : obj A) d v post a :
  NoDup (keys (pre ++ (d, v) :: post)) -> In a (keys post) -> ~ In a (keys pre).
Proof.
  rewrite keys_app. simpl. intros Hnd Ha Hin.
  apply NoDup_remove_1 in Hnd. revert Hnd Hin Ha.
  generalize (keys pre) (keys post). clear.
  induction l as [|x l IH]; simpl; intros l' Hnd Hin Ha; [tauto|].
  inversion Hnd as [|? ? Hx Hnd']; subst. destruct Hin as [->|Hin].
  - apply Hx. apply in_or_app. now right.
  - eauto.
Qed.

(** C8, as the code has it: over a schema with plain field names, the
    constructor takes the entries of its argument one at a time in the
    argument's order; it checks each against the choices stored so far,
    stores the entry that passes (so that [get] returns it and a
    constructed instance holds exactly its argument), and fails with the
    error of the first entry that does not pass.  So an argument in which a
    path [a.k] comes before the entry for [a] never gives an instance: the
    constructor fails with [InvalidField] for [a.k] when the entries before
    it pass and [fields()] returns on the choices they leave, and with the
    error of the entry before it that fails otherwise; once the option [o]
    is stored for a root field [a], the fields of [o]'s node are reachable
    as [a.k] for the entries that follow. *)
Theorem construct_in_order definition :
  plain_names definition = true ->
  (forall pre field v post,
      construct definition (pre ++ (field, v) :: post) =
      (choices <- construct definition pre ;;
       c <- validate definition choices field v ;;
       apply_entries definition post c)) /\
  (forall choices field v c,
      validate definition choices field v = Ok c ->
      c = set field v choices /\ get c field = v /\
      forall q, q <> field -> get c q = get choices q) /\
  (forall values b,
      NoDup (keys values) -> construct definition values = Ok b -> b = values) /\
  (forall pre a k v post,
      dotfree k = true ->
      NoDup (keys (pre ++ ((a ++ "." ++ k)%string, v) :: post)) ->
      In a (keys post) ->
      (forall b,
          construct definition (pre ++ ((a ++ "." ++ k)%string, v) :: post) <> Ok b) /\
      (forall choices reachable,
          construct definition pre = Ok choices ->
          fields_of definition choices = Ok reachable ->
          construct definition (pre ++ ((a ++ "." ++ k)%string, v) :: post)
          = Throw (InvalidField (a ++ "." ++ k))) /\
      (forall e,
          construct definition pre = Throw e ->
          construct definition (pre ++ ((a ++ "." ++ k)%string, v) :: post) = Throw e)) /\
  (forall choices reachable a spec_a opts o n k spec,
      fields_of definition choices = Ok reachable ->
      In (a, spec_a) (node_fields definition) ->
      options spec_a = Enumerated opts ->
      choice_at choices a = VString o ->
      lookup o opts = Some n ->
      In (k, spec) (node_fields n) ->
      In (a ++ "." ++ k)%string reachable).
Proof.
  intros Hwf. split; [apply construct_prefix|]. split; [|split; [|split]];
    [| | |intros; eapply child_in_fields; eauto].
  - intros choices field v c Hv. apply validate_Ok in Hv as [-> _].
    unfold get. split; [reflexivity|]. split; [apply choice_at_set_same|].
    intros q Hq. now apply choice_at_set_other.
  - intros values b. apply construct_fresh.
  - intros pre a k v post Hk Hnd Ha.
    assert (Hnd' : NoDup (keys pre)).
    { rewrite keys_app in Hnd. now apply NoDup_app_remove_r in Hnd. }
    pose proof (NoDup_keys_later _ _ _ _ _ Hnd Ha) as Hna.
    assert (Hfield : forall choices reachable,
               construct definition pre = Ok choices ->
               fields_of definition choices = Ok reachable ->
               construct definition (pre ++ ((a ++ "." ++ k)%string, v) :: post)
               = Throw (InvalidField (a ++ "." ++ k))).
    { intros choices reachable Hpre Hf. rewrite construct_prefix, Hpre. simpl.
      pose proof (construct_fresh _ _ _ Hnd' Hpre) as ->.
      rewrite (validate_unreachable _ _ _ _ reachable); auto.
      destruct (contains (a ++ "." ++ k) reachable) eqn:Hc; auto.
      apply contains_In in Hc.
      pose proof (fields_parent_recorded _ _ _ _ _
                    (plain_names_dotfree _ Hwf) Hf Hk Hc) as Hu.
      now rewrite (choice_at_unrecorded _ _ Hna) in Hu. }
    split; [|split; [exact Hfield|]].
    + intros b. destruct (construct definition pre) as [choices|e] eqn:Hpre.
      * destruct (fields_of definition choices) as [reachable|e] eqn:Hf.
        -- rewrite (Hfield _ _ eq_refl Hf). discriminate.
        -- rewrite construct_prefix, Hpre. simpl. unfold validate. rewrite Hf.
           discriminate.
      * rewrite construct_prefix, Hpre. discriminate.
    + intros e Hpre. now rewrite construct_prefix, Hpre.
Qed.

Lemma construct_in_order_witness :
  construct character [("class.spell", VString "fireball"); ("class", VString "mage")]
  = Throw (InvalidField "class.spell").
Proof.
  refine (proj1 (proj2 (proj1 (proj2 (proj2 (proj2 (construct_in_order character eq_refl)))) []
            "class" "spell" (VString "fireball") [("class", VString "mage")]
            eq_refl _ _)) [] ["name"; "class"] eq_refl eq_refl).
  - repeat constructor; simpl; intuition discriminate.
  - simpl. now left.
Defined.

(** "class.spell" comes before "class", and the constructor fails at the
    entry before it: the error is [InvalidChoice] for "name". *)
Lemma construct_fails_at_earlier_entry :
  In "class" (keys [("class", VString "mage")]) /\
  construct character
    [("name", VNumber 7); ("class.spell", VString "fireball"); ("class", VString "mage")]
  = Throw (InvalidChoice "name" (VNumber 7) (Some "must be string")) /\
  construct character
    [("name", VNumber 7); ("class.spell", VString "fireball"); ("class", VString "mage")]
  <> Throw (InvalidField "class.spell").
Proof.
  split; [simpl; tauto|]. split; [reflexivity|discriminate].
Qed.

(** ** C10: choosing again above recorded descendants *)

Lemma set_middle {A} (pre : obj A) a v0 v rest :
  ~ In a (keys pre) -> set a v (pre ++ (a, v0) :: rest) = pre ++ (a, v) :: rest.
Proof.
  induction pre as [|[k x] pre IH]; simpl; intros H.
  - now rewrite String.eqb_refl.
  - destruct (String.eqb a k) eqn:E.
    + apply String.eqb_eq in E. subst. tauto.
    + rewrite IH; tauto.
Qed.

Lemma lookup_middle {A} (pre : obj A) a v rest :
  ~ In a (keys pre) -> lookup a (pre ++ (a, v) :: rest) = Some v.
Proof.
  induction pre as [|[k x] pre IH]; simpl; intros H.
  - now rewrite String.eqb_refl.
  - destruct (String.eqb a k) eqn:E.
    + apply String.eqb_eq in E. subst. tauto.
    + apply IH. tauto.
Qed.

Lemma NoDup_keys_middle {A} (pre : obj A) a v rest :
  NoDup (keys (pre ++ (a, v) :: rest)) -> ~ In a (keys pre).
Proof.
  rewrite keys_app. simpl. intros H Hin. apply NoDup_remove_2 in H.
  apply H. apply in_or_app. now left.
Qed.

(** C10, as the code has it: when [b] records [a] and after it a path [d]
    that is not reachable while [a] is [o2], [b.choose(a, o2)] never returns
    an instance.  It checks the merged choices again in their order and
    raises at the first entry that fails: [InvalidField] for [d] when the
    entries recorded before [d] pass again and [fields()] returns on the
    choices they leave, and the failure of the entry before [d] that does
    not pass otherwise. *)
Theorem rechoose_above_stale_path definition pre a o1 mid d w post o2 :
  Builder definition (pre ++ (a, o1) :: mid ++ (d, w) :: post) ->
  (forall c l, choice_at c a = o2 -> fields_of definition c = Ok l -> ~ In d l) ->
  choose definition (pre ++ (a, o1) :: mid ++ (d, w) :: post) a o2 =
  (c <- construct definition (pre ++ (a, o2) :: mid) ;;
   _ <- fields_of definition c ;;
   Throw (InvalidField d)) /\
  (forall b', choose definition (pre ++ (a, o1) :: mid ++ (d, w) :: post) a o2
              <> Ok b').
Proof.
  intros [Hnd Hb] Hstale.
  pose proof (NoDup_keys_middle _ _ _ _ Hnd) as Ha.
  assert (E : choose definition (pre ++ (a, o1) :: mid ++ (d, w) :: post) a o2 =
              (c <- construct definition (pre ++ (a, o2) :: mid) ;;
               _ <- fields_of definition c ;; Throw (InvalidField d))).
  { unfold choose. rewrite merge_single by assumption.
    rewrite set_middle by assumption.
    replace (pre ++ (a, o2) :: mid ++ (d, w) :: post)
      with ((pre ++ (a, o2) :: mid) ++ (d, w) :: post)
      by (now rewrite <- app_assoc).
    rewrite construct_prefix.
    destruct (construct definition (pre ++ (a, o2) :: mid)) as [c|e] eqn:Hc;
      simpl; auto.
    assert (Hnd2 : NoDup (keys (pre ++ (a, o2) :: mid))).
    { replace (pre ++ (a, o1) :: mid ++ (d, w) :: post)
        with ((pre ++ (a, o1) :: mid) ++ (d, w) :: post) in Hnd
        by (now rewrite <- app_assoc).
      rewrite keys_app in Hnd. apply NoDup_app_remove_r in Hnd.
      rewrite keys_app in *. exact Hnd. }
    pose proof (construct_fresh _ _ _ Hnd2 Hc) as ->.
    unfold validate.
    destruct (fields_of definition (pre ++ (a, o2) :: mid)) as [l|e] eqn:Hl;
      simpl; auto.
    destruct (contains d l) eqn:Hd; simpl; auto.
    exfalso. apply contains_In in Hd. revert Hd.
    refine (Hstale _ _ _ Hl).
    unfold choice_at. now rewrite lookup_middle. }
  split; [exact E|].
  intros b'. rewrite E.
  destruct (construct definition (pre ++ (a, o2) :: mid)) as [c|e]; simpl;
    [|discriminate].
  destruct (fields_of definition c); simpl; discriminate.
Qed.

(** Every path [fields()] returns names a field of a node it visits. *)
Lemma ideaFn_origin choices definition config :
  forall breadcrumb l,
    visited choices definition config breadcrumb ->
    ideaFn choices config breadcrumb = Ok l ->
    forall p, In p (tl l) ->
    exists config' pre key spec,
      visited choices definition config' pre /\
      In (key, spec) (node_fields config') /\
      p = join "." (pre ++ [key]).
Proof.
  induction config as [fields IH] using SchemaNode_nested_ind.
  intros bc l Hv. rewrite ideaFn_eq.
  destruct (sequence _) as [rs|] eqn:Hs; simpl; [|discriminate].
  intros H. injection H as <-. simpl. intros p Hp.
  destruct (sequence_concat_In _ _ _ _ Hs Hp) as ([key spec] & r & Hin & Hr & Hpr).
  unfold emit in Hr. simpl in Hr.
  destruct (options spec) as [lit|opts] eqn:Hopt.
  - injection Hr as <-. destruct Hpr as [<-|[]].
    exists (Node fields), bc, key, spec. auto.
  - destruct (is_undefined (choice_at choices (join "." (bc ++ [key])))) eqn:Hu.
    + injection Hr as <-. destruct Hpr as [<-|[]].
      exists (Node fields), bc, key, spec. auto.
    + destruct (lookup _ opts) as [n|] eqn:Hn; [|discriminate].
      pose proof (ideaFn_head _ _ _ _ Hr) as [rest ->].
      destruct Hpr as [<-|Hpr].
      * exists (Node fields), bc, key, spec. auto.
      * assert (Hv' : visited choices definition n (bc ++ [key]))
          by (eapply visited_option; eauto).
        apply lookup_In in Hn.
        exact (IH key spec opts _ n Hin Hopt Hn _ _ Hv' Hr p Hpr).
Qed.

Lemma fields_origin choices definition l p :
  fields_of definition choices = Ok l -> In p l ->
  exists config pre key spec,
    visited choices definition config pre /\
    In (key, spec) (node_fields config) /\
    p = join "." (pre ++ [key]).
Proof.
  unfold fields_of. intros Hl Hin.
  destruct (ideaFn choices definition []) as [l0|] eqn:H0; simpl in Hl; [|discriminate].
  injection Hl as <-.
  exact (ideaFn_origin _ _ _ _ _ (visited_root _ _) H0 p Hin).
Qed.

Lemma visited_dotfree choices definition config breadcrumb :
  dotfree_names definition = true ->
  visited choices definition config breadcrumb ->
  dotfree_names config = true.
Proof.
  intros Hwf. induction 1 as [|config bc key spec opts n Hv IH Hin Hopt Hdef Hn]; auto.
  destruct config as [fields]. simpl in *. rewrite forallb_forall in IH.
  specialize (IH _ Hin). simpl in IH. apply andb_prop in IH as [_ IH].
  rewrite Hopt, forallb_forall in IH. apply lookup_In in Hn.
  exact (IH _ Hn).
Qed.

Lemma field_name_dotfree config key (spec : FieldSpec SchemaNode) :
  dotfree_names config = true -> In (key, spec) (node_fields config) ->
  dotfree key = true.
Proof.
  destruct config as [fields]. simpl. rewrite forallb_forall. intros H Hin.
  specialize (H _ Hin). simpl in H. now apply andb_prop in H as [H _].
Qed.

Lemma NoDup_keys_functional {A} (o : obj A) k x y :
  NoDup (keys o) -> In (k, x) o -> In (k, y) o -> x = y.
Proof.
  induction o as [|[k' a] o IH]; simpl; intros Hnd Hx Hy; [tauto|].
  inversion Hnd as [|? ? Hk Hnd']; subst.
  assert (Hfst : forall z, In (k', z) o -> In k' (keys o)).
  { intros z Hz. unfold keys. apply in_map_iff. exists (k', z). auto. }
  destruct Hx as [Ex|Hx], Hy as [Ey|Hy].
  - congruence.
  - injection Ex as -> _. exfalso. eauto.
  - injection Ey as -> _. exfalso. eauto.
  - eauto.
Qed.

Lemma visited_nil choices definition config :
  visited choices definition config [] -> config = definition.
Proof.
  intros H. remember [] as bc eqn:E. destruct H; auto.
  now apply app_eq_nil in E as [_ E].
Qed.

(** Below a root field [a] whose choice is the option [o2], only the fields
    of [o2]'s node are reachable. *)
Lemma root_option_unreachable definition a spec opts o2 n2 k :
  dotfree_names definition = true ->
  NoDup (keys (node_fields definition)) ->
  In (a, spec) (node_fields definition) ->
  options spec = Enumerated opts ->
  lookup o2 opts = Some n2 ->
  ~ In k (keys (node_fields n2)) ->
  dotfree k = true ->
  forall c l,
    choice_at c a = VString o2 ->
    fields_of definition c = Ok l ->
    ~ In (a ++ "." ++ k)%string l.
Proof.
  intros Hwf Hnd Ha Hopt Ho2 Hk Hdk c l Hc Hl Hin.
  destruct (fields_origin _ _ _ _ Hl Hin) as (config & pre & key & spec0 & Hv & Hf & E).
  pose proof (field_name_dotfree _ _ _ (visited_dotfree _ _ _ _ Hwf Hv) Hf) as Hkey.
  pose proof (field_name_dotfree _ _ _ Hwf Ha) as Hda.
  destruct pre as [|x pre].
  - change (join "." ([] ++ [key])) with key in E.
    pose proof (dotfree_app_dot a k) as D. congruence.
  - rewrite join_snoc in E by discriminate.
    apply append_dot_inj in E as [Ea Ek]; auto. subst key.
    remember (x :: pre) as route eqn:Er.
    destruct Hv as [|config0 bc key' spec' opts' n Hv0 Hin0 Hopt0 Hdef0 Hn0];
      [discriminate|].
    clear Er. destruct bc as [|y bc].
    + change (join "." ([] ++ [key'])) with key' in *. subst key'.
      apply visited_nil in Hv0. subst config0.
      pose proof (NoDup_keys_functional _ _ _ _ Hnd Ha Hin0). subst spec'.
      rewrite Hopt in Hopt0. injection Hopt0 as <-.
      rewrite Hc in Hn0. simpl in Hn0. rewrite Ho2 in Hn0.
      injection Hn0 as <-. apply Hk.
      unfold keys. apply in_map_iff. exists (k, spec0). auto.
    + rewrite join_snoc in Ea by discriminate.
      rewrite Ea in Hda. now rewrite dotfree_app_dot in Hda.
Qed.

Lemma rechoose_above_stale_path_witness :
  choose character
    ([] ++ ("class", VString "mage") :: [] ++ ("class.spell", VString "fireball") :: [])
    "class" (VString "warrior")
  = Throw (InvalidField "class.spell").
Proof.
  assert (Hb : Builder character
                 ([] ++ ("class", VString "mage")
                     :: [] ++ ("class.spell", VString "fireball") :: [])).
  { split; [|reflexivity]. repeat constructor; simpl; intuition discriminate. }
  assert (Hs : forall c l, choice_at c "class" = VString "warrior" ->
                           fields_of character c = Ok l -> ~ In "class.spell" l).
  { apply (root_option_unreachable character "class" class_spec class_options
             "warrior" (Node []) "spell"); try reflexivity.
    - repeat constructor; simpl; intuition discriminate.
    - simpl. right. now left.
    - simpl. tauto. }
  exact (proj1 (rechoose_above_stale_path character [] "class" (VString "mage") []
                  "class.spell" (VString "fireball") [] (VString "warrior") Hb Hs)).
Defined.

(** With [apprentice], choosing "warrior" for "class" fails at
    "class.level", recorded before the stale "class.spell": the error is
    [InvalidChoice] for "class.level". *)
Lemma rechoose_raises_other_error :
  Builder adventurer apprentice /\
  get apprentice "class" = VString "mage" /\
  get apprentice "class.spell" = VString "fireball" /\
  fields_of adventurer [("class", VString "warrior")] = Ok ["class"; "class.level"] /\
  choose adventurer apprentice "class" (VString "warrior")
  = Throw (InvalidChoice "class.level" (VString "apprentice") (Some "must be number")) /\
  choose adventurer apprentice "class" (VString "warrior")
  <> Throw (InvalidField "class.spell").
Proof.
  split.
  - split; [|reflexivity]. repeat constructor; simpl; intuition discriminate.
  - repeat split; try reflexivity. discriminate.
Qed.

(** ** Where [_choiceConfig] finds the governing specification

    For a root field, and for a field one choice below the root, the keys
    [_choiceConfig] builds lead to the specification [fields()] walks to. *)

Lemma split_dotfree s : dotfree s = true -> split "." s = [s].
Proof.
  unfold split. induction s as [|c s IH]; simpl; auto.
  intros H. apply andb_prop in H as [Hc Hs].
  destruct (Ascii.eqb c ".") eqn:E; [discriminate|]. now rewrite (IH Hs).
Qed.

Lemma split_app_dot a k :
  dotfree a = true -> split "." (a ++ "." ++ k) = a :: split "." k.
Proof.
  unfold split. induction a as [|c a IH]; [reflexivity|].
  intros H. simpl in H. apply andb_prop in H as [Hc Ha].
  specialize (IH Ha). simpl in *.
  destruct (Ascii.eqb c ".") eqn:E; [discriminate|]. now rewrite IH.
Qed.

Lemma lookup_map_snd {A B} (f : A -> B) k (o : obj A) :
  lookup k (map (fun kv => (fst kv, f (snd kv))) o) = option_map f (lookup k o).
Proof.
  induction o as [|[k' a] o IH]; simpl; auto.
  destruct (String.eqb k k'); auto.
Qed.

Lemma isEmpty_VString s : s <> "" -> isEmpty (VString s) = false.
Proof. destruct s; [congruence|reflexivity]. Qed.

Lemma _choiceConfig_root definition choices p spec :
  dotfree p = true -> p <> "" ->
  lookup p (node_fields definition) = Some spec ->
  _choiceConfig definition choices p = spec_to_js node_to_js spec.
Proof.
  intros Hd Hne Hl. unfold _choiceConfig, reject, chain.
  rewrite (split_dotfree _ Hd). cbn -[isEmpty].
  rewrite (isEmpty_VString _ Hne). simpl.
  rewrite lookup_map_snd, Hl. reflexivity.
Qed.


(** ** C3: the options of a reachable field, and choosing one of them *)










(** ** C2, C4, C5 and C7: a path below two choices is resolved by bare field names

    [_choiceConfig] reads [this.choices[option]] with [option] the bare name
    of an ancestor field, where [fields()] and the stored keys use the whole
    dotted path.  For "class.school.spell" it follows the choice recorded for
    the root field "school", not the one recorded for "class.school". *)

Lemma graduate_resolved_by_root_field :
  _choiceConfig academy graduate "class.school.spell"
  = path [VString "class"; VString "options"; get graduate "class"; VString "fields";
          VString "school"; VString "options"; get graduate "school"; VString "fields";
          VString "spell"]
         (fields_to_js (node_fields academy)).
Proof. reflexivity. Qed.

(** C2 at the failing input: the constructor accepts [graduate], and
    [fields()] on the instance it returns throws. *)
Lemma fields_throws_on_graduate :
  construct academy graduate = Ok graduate /\
  Builder academy graduate /\
  fields_of academy graduate = Throw TypeError /\
  GeneratedBuilder.constructor academy graduate [] = (Ok 0, [graduate]) /\
  GeneratedBuilder.fields academy [graduate] 0 = Throw TypeError.
Proof.
  split; [reflexivity|]. split; [|repeat split].
  split; [|reflexivity]. repeat constructor; simpl; intuition discriminate.
Qed.

(** C4 at the failing input: the instance records "frostbolt" for
    "class.school.spell", the field "spell" of the node that the recorded
    choices "class" = "mage" and "class.school" = "fire" lead to, and
    "frostbolt" is not a key of that field's option map. *)
Lemma graduate_holds_foreign_option :
  construct academy graduate = Ok graduate /\
  get graduate "class.school.spell" = VString "frostbolt" /\
  exists config spec,
    visited graduate academy config ["class"; "school"] /\
    In ("spell", spec) (node_fields config) /\
    options spec = Enumerated [("fireball", Node [])] /\
    matches_options spec (get graduate "class.school.spell") = false.
Proof.
  split; [reflexivity|]. split; [reflexivity|].
  exists (spell_of "fireball"), (mkField (Enumerated [("fireball", Node [])]) None None).
  split; [|split; [simpl; tauto | split; reflexivity]].
  apply (visited_option graduate academy (Node [("school", school_spec)]) ["class"]
           "school" school_spec
           [("fire", spell_of "fireball"); ("ice", spell_of "frostbolt")]);
    try reflexivity; [|simpl; tauto].
  apply (visited_option graduate academy academy [] "class"
           (mkField (Enumerated [("mage", Node [("school", school_spec)])]) None None)
           [("mage", Node [("school", school_spec)])]);
    try reflexivity; [apply visited_root | simpl; tauto].
Qed.

(** C5 at the failing input: "class.school.spell" is among the fields of
    [novice], and choosing "fireball" for it, the one option of the chosen
    school, fails with [TypeError], which is neither [InvalidField] nor
    [InvalidChoice]; the receiver is left as it was. *)
Lemma reachable_choose_throws_TypeError :
  Builder academy novice /\
  fields_of academy novice = Ok ["school"; "class"; "class.school"; "class.school.spell"] /\
  choose academy novice "class.school.spell" (VString "fireball") = Throw TypeError /\
  GeneratedBuilder.choose academy 0 "class.school.spell" (VString "fireball") [novice]
  = (Throw TypeError, [novice; novice]) /\
  choices_of [novice; novice] 0 = novice.
Proof.
  split; [|repeat split].
  split; [|reflexivity]. repeat constructor; simpl; intuition discriminate.
Qed.

(** C7 at the failing input: "class.school.spell" is among the fields of
    [novice], its field has the single option "fireball", and the number 5
    is none of its options; the loop body, [choose] and the constructor
    fail with [TypeError], not with [InvalidChoice] carrying path, value
    and reason. *)
Lemma mismatch_below_two_choices_throws_TypeError :
  Builder academy novice /\
  (exists l, fields_of academy novice = Ok l /\ In "class.school.spell" l) /\
  (exists config spec,
      visited novice academy config ["class"; "school"] /\
      In ("spell", spec) (node_fields config) /\
      options spec = Enumerated [("fireball", Node [])] /\
      matches_options spec (VNumber 5) = false) /\
  validate academy novice "class.school.spell" (VNumber 5) = Throw TypeError /\
  choose academy novice "class.school.spell" (VNumber 5) = Throw TypeError /\
  construct academy (novice ++ [("class.school.spell", VNumber 5)]) = Throw TypeError.
Proof.
  split; [split; [|reflexivity]; repeat constructor; simpl; intuition discriminate|].
  split.
  { exists ["school"; "class"; "class.school"; "class.school.spell"].
    split; [reflexivity|]. simpl. tauto. }
  split; [|repeat split].
  exists (spell_of "fireball"), (mkField (Enumerated [("fireball", Node [])]) None None).
  split; [|split; [simpl; tauto | split; reflexivity]].
  apply (visited_option novice academy (Node [("school", school_spec)]) ["class"]
           "school" school_spec
           [("fire", spell_of "fireball"); ("ice", spell_of "frostbolt")]);
    try reflexivity; [|simpl; tauto].
  apply (visited_option novice academy academy [] "class"
           (mkField (Enumerated [("mage", Node [("school", school_spec)])]) None None)
           [("mage", Node [("school", school_spec)])]);
    try reflexivity; [apply visited_root | simpl; tauto].
Qed.

(** * Further properties of the builder *)

(** ** Choosing and reading back *)

(** X1: on an instance, a successful [choose(p, v)] for a path that is
    neither an array index nor "__proto__" gives the receiver's choices
    with [p] set to [v]: [get(p)] on the result is [v], [get] of every other
    path is what the receiver has, and the result is again the choices of
    an instance. *)
Theorem choose_then_get definition b p v b' :
  ordinary_key p = true ->
  Builder definition b ->
  choose definition b p v = Ok b' ->
  b' = set p v b /\
  get b' p = v /\
  (forall q, q <> p -> get b' q = get b q) /\
  Builder definition b'.
Proof.
  intros _ [Hnd Hb] Hc. pose proof (choose_Builder _ _ _ _ _ Hc) as Hb'.
  unfold choose in Hc. rewrite merge_single in Hc by assumption.
  apply construct_fresh in Hc; [|now apply NoDup_keys_set]. subst b'.
  unfold get. split; [reflexivity|]. split; [apply choice_at_set_same|].
  split; [|exact Hb']. intros q Hq. now apply choice_at_set_other.
Qed.

Lemma choose_then_get_witness :
  get [("class", VString "mage")] "class" = VString "mage".
Proof.
  assert (Hb : Builder character []) by (split; [constructor|reflexivity]).
  exact (proj1 (proj2 (choose_then_get character [] "class" (VString "mage")
                         [("class", VString "mage")] eq_refl Hb eq_refl))).
Defined.

(** X2: choosing a path that has no recorded value, and is neither an
    array index nor "__proto__", only adds to what [fields()] returns: the
    receiver's [fields()] returns, [p] is in it, and each of its paths is
    still in [fields()] of the result. *)
Theorem choose_grows_fields definition b p v b' :
  ordinary_key p = true ->
  Builder definition b -> ~ In p (keys b) ->
  choose definition b p v = Ok b' ->
  exists l,
    fields_of definition b = Ok l /\ In p l /\
    forall l', fields_of definition b' = Ok l' -> incl l l'.
Proof.
  intros _ Hb Hp Hc. rewrite choose_unrecorded in Hc by assumption.
  apply validate_Ok in Hc as [-> (l & Hl & Hin)].
  exists l. split; [exact Hl|]. split; [now apply contains_In|].
  intros l' Hl'. eapply fields_of_set_mono; eauto.
  now apply choice_at_unrecorded.
Qed.

Lemma choose_grows_fields_witness :
  exists l,
    fields_of character [] = Ok l /\ In "class" l /\
    forall l', fields_of character [("class", VString "mage")] = Ok l' -> incl l l'.
Proof.
  assert (Hb : Builder character []) by (split; [constructor|reflexivity]).
  exact (choose_grows_fields character [] "class" (VString "mage")
           [("class", VString "mage")] eq_refl Hb (fun H => H) eq_refl).
Defined.

(** X3: every path an instance records is among the paths its [fields()]
    returns. *)
Theorem recorded_paths_are_fields definition b l k :
  Builder definition b ->
  fields_of definition b = Ok l ->
  In k (keys b) ->
  In k l.
Proof. intros Hb Hl. exact (Builder_keys_reachable definition b l Hb Hl k). Qed.

Lemma recorded_paths_are_fields_witness :
  In "class" ["name"; "class"; "class.spell"].
Proof.
  refine (recorded_paths_are_fields character [("class", VString "mage")]
            ["name"; "class"; "class.spell"] "class" _ eq_refl _).
  - split; [|reflexivity]. repeat constructor; simpl; intuition discriminate.
  - simpl. now left.
Defined.

Lemma set_recorded_value {A} (k : string) (v : A) (o : obj A) :
  lookup k o = Some v -> set k v o = o.
Proof.
  induction o as [|[k' a] o IH]; simpl; [discriminate|].
  destruct (String.eqb k k') eqn:E.
  - intros H. now injection H as ->.
  - intros H. now rewrite IH.
Qed.

(** X4: choosing the same value for the same path once more changes
    nothing: it succeeds and gives the same choices. *)
Theorem choose_again_same definition b p v b' :
  Builder definition b ->
  choose definition b p v = Ok b' ->
  choose definition b' p v = Ok b'.
Proof.
  intros Hb Hc.
  pose proof (choose_Builder _ _ _ _ _ Hc) as [Hnd' Hb'].
  unfold choose in *. rewrite merge_single in * by (assumption || apply Hb).
  apply construct_fresh in Hc; [|apply NoDup_keys_set; apply Hb]. subst b'.
  rewrite set_recorded_value; [exact Hb'|apply lookup_set_same].
Qed.

Lemma choose_again_same_witness :
  choose character [("class", VString "mage")] "class" (VString "mage")
  = Ok [("class", VString "mage")].
Proof.
  assert (Hb : Builder character []) by (split; [constructor|reflexivity]).
  exact (choose_again_same character [] "class" (VString "mage")
           [("class", VString "mage")] Hb eq_refl).
Defined.

(** ** Instances in the store *)



(** X6: [createFrom(origin, config)] ignores [origin] and constructs from
    [config]; given the choices of an instance it returns a new instance
    with the same choices and leaves the store's instances as they were. *)
Theorem createFrom_copies definition h origin this :
  Builder definition (choices_of h this) ->
  exists h',
    GeneratedBuilder.createFrom definition origin (choices_of h this) h
    = (Ok (length h), h') /\
    choices_of h' (length h) = choices_of h this /\
    (forall other, other < length h -> choices_of h' other = choices_of h other).
Proof.
  intros [Hnd Hb]. unfold GeneratedBuilder.createFrom.
  destruct (GeneratedBuilder.constructor definition (choices_of h this) h)
    as [r h'] eqn:Hc.
  apply constructor_spec in Hc as (_ & Hfr & Hr & Hnew).
  rewrite Hb in Hr. simpl in Hr. subst r.
  exists h'. split; [reflexivity|]. split; [now apply Hnew|exact Hfr].
Qed.

Lemma createFrom_copies_witness :
  exists h',
    GeneratedBuilder.createFrom character 0 (choices_of [[("class", VString "mage")]] 0)
      [[("class", VString "mage")]]
    = (Ok 1, h') /\
    choices_of h' 1 = [("class", VString "mage")].
Proof.
  assert (Hb : Builder character (choices_of [[("class", VString "mage")]] 0)).
  { split; [|reflexivity]. repeat constructor; simpl; intuition discriminate. }
  destruct (createFrom_copies character [[("class", VString "mage")]] 0 0 Hb)
    as (h' & H1 & H2 & _).
  exists h'. split; [exact H1|exact H2].
Defined.

(** ** Root fields *)

Lemma root_field_in_fields definition choices l key spec :
  fields_of definition choices = Ok l ->
  In (key, spec) (node_fields definition) ->
  In key l.
Proof.
  unfold fields_of. destruct definition as [fields]. rewrite ideaFn_eq. simpl.
  destruct (sequence _) as [rs|] eqn:Hs; simpl; [|discriminate].
  intros H Hin. injection H as <-.
  destruct (sequence_Ok_In _ _ _ _ Hs Hin) as (r & before & after & Hr & ->).
  apply emit_own_path in Hr. apply in_or_app. right. apply in_or_app. now left.
Qed.

(** X7: whatever has been chosen, when [fields()] returns it holds the name
    of every root field, and so every name [requires()] returns. *)
Theorem required_fields_are_fields definition choices l :
  fields_of definition choices = Ok l ->
  (forall key, In key (keys (node_fields definition)) -> In key l) /\
  (forall x, In x (requires definition) -> In x l).
Proof.
  intros Hl.
  assert (H : forall key, In key (keys (node_fields definition)) -> In key l).
  { intros key Hk. unfold keys in Hk. apply in_map_iff in Hk as ([k spec] & <- & Hin).
    eapply root_field_in_fields; eauto. }
  split; [exact H|].
  intros x Hx. apply H. unfold requires, keys in *.
  apply in_map_iff in Hx as (kv & <- & Hin). apply filter_In in Hin as [Hin _].
  now apply in_map.
Qed.

Lemma required_fields_are_fields_witness :
  In "class" ["name"; "class"; "class.spell"].
Proof.
  refine (proj2 (required_fields_are_fields character [("class", VString "mage")]
                   ["name"; "class"; "class.spell"] eq_refl) "class" _).
  simpl. tauto.
Defined.

Lemma literalChoice_spec (spec : FieldSpec SchemaNode) :
  literalChoice (spec_to_js node_to_js spec) = Ok (negb (nonLiteral spec)).
Proof.
  unfold literalChoice. rewrite spec_options_js. simpl. unfold nonLiteral.
  now destruct (options spec).
Qed.

Lemma reject_props_fields (fields : list (string * FieldSpec SchemaNode)) :
  reject_props (map (fun kv => (fst kv, spec_to_js node_to_js (snd kv))) fields) =
  Ok (map (fun kv => (fst kv, spec_to_js node_to_js (snd kv)))
          (filter (fun kv => nonLiteral (snd kv)) fields)).
Proof.
  induction fields as [|[k spec] fields IH]; [reflexivity|].
  cbn [map filter reject_props fst snd].
  rewrite literalChoice_spec, IH. cbn [bind].
  destruct (nonLiteral spec); reflexivity.
Qed.

(** X8: the root fields [missing()] takes as non-literal, by
    [reject(literalChoice, fields)] on the root field map, are the ones the
    generated class computes as [nonLiteralDefChoices], in the same order. *)
Theorem nonLiteral_keys_root definition :
  nonLiteral_keys (fields_to_js (node_fields definition))
  = Ok (nonLiteralDefChoices definition).
Proof.
  unfold nonLiteral_keys, fields_to_js, nonLiteralDefChoices.
  rewrite reject_props_fields. simpl. now rewrite keys_map_snd.
Qed.

(** ** The first level of [missing()] *)

Lemma map_addBreadcrumb_root l : map (addBreadcrumb "") l = l.
Proof. induction l as [|x l IH]; simpl; auto. now rewrite IH. Qed.

Lemma level_fields_root definition choices :
  isNil (choice_at choices "") = true ->
  level_fields definition choices "" = fields_to_js (node_fields definition).
Proof. intros H. unfold level_fields. rewrite H. reflexivity. Qed.

Lemma findMissingFor_nil definition choices fuel :
  findMissingFor definition choices fuel [] = Some (Ok []).
Proof. destruct fuel; reflexivity. Qed.

(** At the root, [missing()] reports the root fields without a value and
    goes on below the non-literal root fields that have one. *)
Lemma missing_root_level definition choices fuel :
  isNil (choice_at choices "") = true ->
  missing definition choices (S fuel) =
  match findMissingFor definition choices fuel
          (filter (fun f => negb (undefinedChoice choices f))
                  (nonLiteralDefChoices definition)) with
  | None => None
  | Some (Throw e) => Some (Throw e)
  | Some (Ok deeper) =>
    Some (Ok ((filter (undefinedChoice choices) (keys (node_fields definition))
               ++ deeper) ++ []))
  end.
Proof.
  intros H. unfold missing. cbn [findMissingFor].
  rewrite (level_fields_root _ _ H), nonLiteral_keys_root.
  rewrite !map_addBreadcrumb_root, findMissingFor_nil.
  unfold fields_to_js, js_keys. now rewrite keys_map_snd.
Qed.

(** X9: when [get("")] is [undefined] or [null] and [missing()] returns,
    a root field is in the result exactly when [get] of it is
    [undefined]. *)
Theorem missing_reports_unset_root_fields definition choices fuel l key :
  isNil (choice_at choices "") = true ->
  missing definition choices fuel = Some (Ok l) ->
  In key (keys (node_fields definition)) ->
  (In key l <-> get choices key = VUndefined).
Proof.
  intros Hroot Hm Hkey. split.
  - intros Hin. apply findMissingFor_undefined in Hm.
    rewrite Forall_forall in Hm. specialize (Hm key Hin).
    unfold undefinedChoice, get in *. now destruct (choice_at choices key).
  - intros Hg. destruct fuel as [|fuel]; [discriminate|].
    rewrite missing_root_level in Hm by assumption.
    destruct (findMissingFor _ _ fuel _) as [[deeper|e]|]; try discriminate.
    injection Hm as <-. apply in_or_app. left. apply in_or_app. left.
    apply filter_In. split; auto. unfold undefinedChoice, get in *. now rewrite Hg.
Qed.

Lemma missing_reports_unset_root_fields_witness :
  In "name" ["name"; "class.spell"] <-> get [("class", VString "mage")] "name" = VUndefined.
Proof.
  refine (missing_reports_unset_root_fields character [("class", VString "mage")] 3
            ["name"; "class.spell"] "name" eq_refl eq_refl _).
  simpl. tauto.
Defined.

Lemma sequence_map_Ok {A B} (g : A -> result B) (h : A -> B) (l : list A) :
  (forall x, In x l -> g x = Ok (h x)) -> sequence (map g l) = Ok (map h l).
Proof.
  induction l as [|a l IH]; simpl; intros H; auto.
  rewrite (H a (or_introl eq_refl)), IH; auto.
Qed.

Lemma concat_singletons {A B} (f : A -> B) (l : list A) :
  concat (map (fun x => [f x]) l) = map f l.
Proof. induction l as [|a l IH]; simpl; auto. now rewrite IH. Qed.

Lemma filter_all {A} (f : A -> bool) (l : list A) :
  (forall x, In x l -> f x = true) -> filter f l = l.
Proof.
  induction l as [|a l IH]; simpl; intros H; auto.
  rewrite (H a (or_introl eq_refl)), IH; auto.
Qed.

Lemma filter_none {A} (f : A -> bool) (l : list A) :
  (forall x, In x l -> f x = false) -> filter f l = [].
Proof.
  induction l as [|a l IH]; simpl; intros H; auto.
  rewrite (H a (or_introl eq_refl)), IH; auto.
Qed.

(** X10: over a schema with plain field names, on an instance with no
    choices [fields()] and [missing()] both return the names of the root
    fields, in the schema's order. *)
Theorem no_choices_all_root_fields definition :
  plain_names definition = true ->
  fields_of definition [] = Ok (keys (node_fields definition)) /\
  forall fuel, missing definition [] (S fuel) = Some (Ok (keys (node_fields definition))).
Proof.
  intros _. split.
  - unfold fields_of. destruct definition as [fields]. rewrite ideaFn_eq.
    rewrite (sequence_map_Ok _ (fun kv => [fst kv])).
    + simpl. now rewrite concat_singletons.
    + intros [key spec] _. unfold emit. simpl. now destruct (options spec).
  - intros fuel. rewrite missing_root_level by reflexivity.
    rewrite filter_none by reflexivity. rewrite findMissingFor_nil.
    rewrite filter_all by reflexivity. now rewrite !app_nil_r.
Qed.

Lemma no_choices_all_root_fields_witness :
  fields_of character [] = Ok ["name"; "class"] /\
  forall fuel, missing character [] (S fuel) = Some (Ok ["name"; "class"]).
Proof. exact (no_choices_all_root_fields character eq_refl). Defined.

(** ** Options, by the place of the field *)

(** X11: for a root field, [options(p)] is read off the field's own
    specification, the marker of a literal field and the option names of an
    enumerated one, whatever has been chosen. *)
Theorem options_of_root_field definition choices p spec prop_nil_safe :
  dotfree p = true -> p <> "" ->
  lookup p (node_fields definition) = Some spec ->
  options_of prop_nil_safe definition choices p =
  Ok (match options spec with
      | Literal l => ViewSymbol l
      | Enumerated opts => ViewKeys (keys opts)
      end).
Proof.
  intros Hd Hne Hl. unfold options_of.
  rewrite (_choiceConfig_root _ _ _ _ Hd Hne Hl). simpl.
  destruct (options spec); auto. now rewrite keys_map_snd.
Qed.

Lemma options_of_root_field_witness :
  options_of false character [("class", VString "mage")] "name" = Ok (ViewSymbol STRING).
Proof.
  refine (options_of_root_field character [("class", VString "mage")] "name"
            (leaf STRING (Some true)) false eq_refl _ eq_refl).
  discriminate.
Defined.



(** ** Choosing a root field, and a name the schema does not have *)






(** ** Paths: joined by [fields()], split by [_choiceConfig] *)

(** X15: splitting at the separator gives back the segments that were
    joined, when there is at least one segment and none holds the separator:
    the breadcrumb [_choiceConfig] works with is the route [fields()] built
    the path from. *)
Theorem split_join_round_trip (route : list string) :
  route <> [] ->
  Forall (fun segment => dotfree segment = true) route ->
  split "." (join "." route) = route.
Proof.
  induction route as [|x route IH]; [congruence|]. intros _ Hall.
  inversion Hall as [|? ? Hx Hrest]; subst.
  destruct route as [|y route].
  - simpl. now apply split_dotfree.
  - change (join "." (x :: y :: route)) with (x ++ "." ++ join "." (y :: route))%string.
    rewrite split_app_dot by assumption. f_equal. apply IH; [discriminate|assumption].
Qed.

Lemma split_join_round_trip_witness :
  split "." (join "." ["class"; "school"; "spell"]) = ["class"; "school"; "spell"].
Proof.
  apply split_join_round_trip; [discriminate|]. repeat constructor.
Defined.

(** X16: in a schema whose field names do not hold the separator, a path
    [a.k] is among [fields()] only when a value is recorded for [a]. *)
Theorem nested_path_needs_parent_choice definition choices l a k :
  dotfree_names definition = true ->
  fields_of definition choices = Ok l ->
  dotfree k = true ->
  In (a ++ "." ++ k)%string l ->
  get choices a <> VUndefined.
Proof.
  intros Hwf Hl Hk Hin E.
  pose proof (fields_parent_recorded _ _ _ _ _ Hwf Hl Hk Hin) as Hu.
  unfold get in E. rewrite E in Hu. discriminate.
Qed.

Lemma nested_path_needs_parent_choice_witness :
  get [("class", VString "mage")] "class" <> VUndefined.
Proof.
  refine (nested_path_needs_parent_choice character [("class", VString "mage")]
            ["name"; "class"; "class.spell"] "class" "spell" eq_refl eq_refl eq_refl _).
  simpl. tauto.
Defined.

(** ** What a failure carries *)

Lemma sequence_Throw {A B} (g : A -> result B) (l : list A) e :
  sequence (map g l) = Throw e -> exists x, In x l /\ g x = Throw e.
Proof.
  induction l as [|a l IH]; simpl; [discriminate|].
  destruct (g a) as [ra|e'] eqn:Ea; simpl.
  - destruct (sequence (map g l)) as [rl|e'] eqn:El; simpl; [discriminate|].
    intros H. injection H as ->. destruct (IH eq_refl) as (x & Hx & Hg). eauto.
  - intros H. injection H as ->. eauto.
Qed.

(** [fields()] throws nothing but the engine's [TypeError]. *)
Lemma ideaFn_Throw choices config :
  forall breadcrumb e, ideaFn choices config breadcrumb = Throw e -> e = TypeError.
Proof.
  induction config as [fields IH] using SchemaNode_nested_ind.
  intros bc e. rewrite ideaFn_eq.
  destruct (sequence _) as [rs|e'] eqn:Hs; simpl; [discriminate|].
  intros H. injection H as ->.
  apply sequence_Throw in Hs as ([key spec] & Hin & Hr).
  unfold emit in Hr. simpl in Hr.
  destruct (options spec) as [lit|opts] eqn:Hopt; [discriminate|].
  destruct (is_undefined _); [discriminate|].
  destruct (lookup _ opts) as [n|] eqn:Hn.
  - apply lookup_In in Hn. eapply IH; eauto.
  - now injection Hr.
Qed.

Lemma validate_Throw definition choices field v e :
  validate definition choices field v = Throw e ->
  match e with
  | InvalidField f => f = field
  | InvalidChoice f w _ => f = field /\ w = v
  | TypeError => True
  end.
Proof.
  unfold validate, fields_of.
  destruct (ideaFn choices definition []) as [l0|e0] eqn:H0; simpl.
  - destruct (contains field (tl l0)); simpl.
    + destruct (js_member _ _) as [o|e1] eqn:Hm; simpl.
      * destruct (check_options field v o) as [u|e2] eqn:Hc; simpl.
        -- destruct (check_validation _ _ _) as [u'|e3] eqn:Hv; simpl; [discriminate|].
           intros H. injection H as ->. unfold check_validation in Hv.
           destruct (js_get _ _) as [| | [|] | f |]; try (injection Hv as <-; exact I);
             try discriminate.
           destruct (f v); [discriminate|]. injection Hv as <-. auto.
        -- intros H. injection H as ->. unfold check_options in Hc.
           destruct o as [|[|]|?|?|props]; try discriminate.
           ++ destruct (negb _); [|discriminate]. injection Hc as <-. auto.
           ++ destruct (negb _); [|discriminate]. injection Hc as <-. auto.
           ++ destruct (negb _); [|discriminate]. injection Hc as <-. auto.
      * intros H. injection H as ->. unfold js_member in Hm.
        destruct (_choiceConfig _ _ _); try discriminate. now injection Hm as <-.
    + intros H. injection H as <-. reflexivity.
  - intros H. injection H as ->. now rewrite (ideaFn_Throw _ _ _ _ H0).
Qed.

(** X17: an error the constructor raises is about an entry of its argument:
    [InvalidField] carries the path of one of the entries, [InvalidChoice]
    the path and the value of one of them. *)
Theorem error_names_an_entry definition values e :
  construct definition values = Throw e ->
  match e with
  | InvalidField f => In f (keys values)
  | InvalidChoice f w _ => In (f, w) values
  | TypeError => True
  end.
Proof.
  unfold construct. generalize ([] : ChoiceSet).
  induction values as [|[f v] values IH]; intros c H; simpl in H; [discriminate|].
  destruct (validate definition c f v) as [c1|e1] eqn:Hv; simpl in H.
  - specialize (IH _ H). destruct e; simpl; auto.
  - injection H as ->. apply validate_Throw in Hv.
    destruct e; simpl; auto.
    destruct Hv as [-> ->]. now left.
Qed.

Lemma error_names_an_entry_witness :
  In ("class", VString "rogue") [("name", VString "Ragnar"); ("class", VString "rogue")].
Proof.
  exact (error_names_an_entry character
           [("name", VString "Ragnar"); ("class", VString "rogue")]
           (InvalidChoice "class" (VString "rogue") (Some "must be one of [warrior, mage]"))
           eq_refl).
Defined.

(** ** One choice below the root *)



Lemma findMissingFor_level definition choices fuel :
  forall choicePaths l p f,
    findMissingFor definition choices fuel choicePaths = Some (Ok l) ->
    In p choicePaths ->
    In f (filter (undefinedChoice choices)
            (map (addBreadcrumb p) (js_keys (level_fields definition choices p)))) ->
    In f l.
Proof.
  induction fuel as [|fuel IH]; intros [|q rest] l p f H Hp Hf; simpl in H;
    try discriminate; try (destruct Hp; fail).
  destruct (nonLiteral_keys _) as [nl|e]; [|discriminate].
  destruct (findMissingFor _ _ fuel (filter _ _)) as [[deeper|e]|] eqn:Hd;
    try discriminate.
  destruct (findMissingFor _ _ fuel rest) as [[others|e]|] eqn:Ho;
    try discriminate.
  injection H as <-. destruct Hp as [->|Hp].
  - apply in_or_app. left. apply in_or_app. now left.
  - apply in_or_app. right. eapply IH; eauto.
Qed.

Lemma path_options_fields (spec : FieldSpec SchemaNode) o :
  path [VString "options"; VString o; VString "fields"] (spec_to_js node_to_js spec) =
  match options spec with
  | Literal _ => JUndefined
  | Enumerated opts =>
    match lookup o opts with
    | Some n => fields_to_js (node_fields n)
    | None => JUndefined
    end
  end.
Proof.
  destruct spec as [[lit|opts] req val]; [reflexivity|].
  simpl. rewrite lookup_map_snd.
  destruct (lookup o opts) as [[fs]|]; reflexivity.
Qed.

Lemma level_fields_root_choice definition choices a spec_a opts o n :
  dotfree a = true -> a <> "" ->
  lookup a (node_fields definition) = Some spec_a ->
  options spec_a = Enumerated opts ->
  choice_at choices a = VString o ->
  lookup o opts = Some n ->
  level_fields definition choices a = fields_to_js (node_fields n).
Proof.
  intros Ha Hna Hla Hopt Hc Ho. unfold level_fields.
  rewrite Hc, (_choiceConfig_root _ _ _ _ Ha Hna Hla). cbn [isNil].
  now rewrite path_options_fields, Hopt, Ho.
Qed.

(** X19: when [missing()] returns on choices that record the option [o] for
    the root field [a] (and nothing for the empty path), every field of
    [o]'s node that has no value is reported, as [a.k]. *)
Theorem missing_reports_unset_fields_of_option definition choices fuel l a spec_a
    opts o n k :
  isNil (choice_at choices "") = true ->
  missing definition choices fuel = Some (Ok l) ->
  dotfree a = true -> a <> "" ->
  lookup a (node_fields definition) = Some spec_a ->
  options spec_a = Enumerated opts ->
  choice_at choices a = VString o ->
  lookup o opts = Some n ->
  In k (keys (node_fields n)) ->
  get choices (a ++ "." ++ k) = VUndefined ->
  In (a ++ "." ++ k)%string l.
Proof.
  intros Hroot Hm Ha Hna Hla Hopt Hc Ho Hk Hg.
  destruct fuel as [|fuel]; [discriminate|].
  rewrite missing_root_level in Hm by assumption.
  destruct (findMissingFor _ _ fuel _) as [[deeper|e]|] eqn:Hd; try discriminate.
  injection Hm as <-. apply in_or_app. left. apply in_or_app. right.
  apply (findMissingFor_level _ _ _ _ _ a _ Hd).
  - apply filter_In. split.
    + unfold nonLiteralDefChoices, keys. apply in_map_iff. exists (a, spec_a).
      split; auto. apply filter_In. split; [now apply lookup_In|].
      unfold nonLiteral. simpl. now rewrite Hopt.
    + unfold undefinedChoice. now rewrite Hc.
  - rewrite (level_fields_root_choice _ _ _ _ _ _ _ Ha Hna Hla Hopt Hc Ho).
    unfold fields_to_js, js_keys. rewrite keys_map_snd.
    apply filter_In. split.
    + apply in_map_iff. exists k. split; auto. unfold addBreadcrumb.
      destruct (String.eqb a "") eqn:E; auto.
      apply String.eqb_eq in E. contradiction.
    + unfold undefinedChoice. unfold get in Hg. now rewrite Hg.
Qed.

Lemma missing_reports_unset_fields_of_option_witness :
  In "class.spell" ["name"; "class.spell"].
Proof.
  refine (missing_reports_unset_fields_of_option character [("class", VString "mage")]
            3 ["name"; "class.spell"] "class" class_spec class_options "mage"
            (Node [("spell", leaf STRING (Some true))]) "spell"
            eq_refl eq_refl eq_refl _ eq_refl eq_refl eq_refl eq_refl _ eq_refl).
  - discriminate.
  - simpl. tauto.
Defined.

(** ** The order of the recorded paths *)

(** X20: a successful [choose(p, v)] for a path that is neither an array
    index nor "__proto__" keeps the recorded paths in their order: a path
    that is recorded keeps its place, and a new one comes last.  This is
    the order in which the next [choose] checks them. *)
Theorem choose_keeps_order definition b p v b' :
  ordinary_key p = true ->
  Builder definition b ->
  choose definition b p v = Ok b' ->
  (In p (keys b) -> keys b' = keys b) /\
  (~ In p (keys b) -> keys b' = keys b ++ [p]).
Proof.
  intros _ Hb Hc. pose proof Hb as [Hnd _].
  unfold choose in Hc. rewrite merge_single in Hc by assumption.
  apply construct_fresh in Hc; [|now apply NoDup_keys_set]. subst b'. split.
  - apply keys_set.
  - intros Hp. rewrite set_fresh by assumption. now rewrite keys_app.
Qed.

Lemma choose_keeps_order_witness :
  keys [("class", VString "warrior")] = keys [("class", VString "mage")].
Proof.
  refine (proj1 (choose_keeps_order character [("class", VString "mage")] "class"
                   (VString "warrior") [("class", VString "warrior")] eq_refl _ eq_refl) _).
  - split; [|reflexivity]. repeat constructor; simpl; intuition discriminate.
  - simpl. now left.
Defined.

(** ** Two choices below the root *)

Lemma path_undefined ks : path ks JUndefined = JUndefined.
Proof. destruct ks; reflexivity. Qed.

Lemma path_field k rest (fs : list (string * FieldSpec SchemaNode)) :
  path (VString k :: rest) (fields_to_js fs) =
  match lookup k fs with
  | Some spec => path rest (spec_to_js node_to_js spec)
  | None => JUndefined
  end.
Proof.
  unfold fields_to_js. cbn [path js_get to_key]. rewrite lookup_map_snd.
  destruct (lookup k fs); cbn [option_map]; auto using path_undefined.
Qed.

Lemma js_get_options (spec : FieldSpec SchemaNode) :
  js_get (spec_to_js node_to_js spec) "options" =
  match options spec with
  | Literal l => JSymbol l
  | Enumerated m => JObject (map (fun on => (fst on, node_to_js (snd on))) m)
  end.
Proof. reflexivity. Qed.

Lemma path_cons_spec p rest (spec : FieldSpec SchemaNode) :
  path (p :: rest) (spec_to_js node_to_js spec) =
  path rest (js_get (spec_to_js node_to_js spec) (to_key p)).
Proof. reflexivity. Qed.

Lemma path_fields_node rest (n : SchemaNode) :
  path (VString "fields" :: rest) (node_to_js n) = path rest (fields_to_js (node_fields n)).
Proof. destruct n as [fs]. reflexivity. Qed.

Lemma path_option v rest (spec : FieldSpec SchemaNode) :
  path (VString "options" :: v :: VString "fields" :: rest)
       (spec_to_js node_to_js spec) =
  match options spec with
  | Literal _ => JUndefined
  | Enumerated opts =>
    match lookup (to_key v) opts with
    | Some n => path rest (fields_to_js (node_fields n))
    | None => JUndefined
    end
  end.
Proof.
  rewrite path_cons_spec. cbn [to_key]. rewrite js_get_options.
  destruct (options spec) as [lit|opts].
  - cbn [path js_get]. reflexivity.
  - cbn [path js_get]. rewrite lookup_map_snd.
    destruct (lookup (to_key v) opts) as [n|]; cbn [option_map].
    + destruct n as [fs]. reflexivity.
    + reflexivity.
Qed.

Lemma _choiceConfig_grandchild_unresolved definition choices a b c spec_a opts o n
    spec_b opts_b :
  dotfree a = true -> dotfree b = true -> dotfree c = true ->
  a <> "" -> b <> "" -> c <> "" -> o <> "" ->
  lookup a (node_fields definition) = Some spec_a ->
  options spec_a = Enumerated opts ->
  choice_at choices a = VString o ->
  lookup o opts = Some n ->
  lookup b (node_fields n) = Some spec_b ->
  options spec_b = Enumerated opts_b ->
  choice_at choices b = VUndefined ->
  lookup "undefined" opts_b = None ->
  _choiceConfig definition choices (a ++ "." ++ b ++ "." ++ c) = JUndefined.
Proof.
  intros Ha Hb Hc Hna Hnb Hnc Hno Hla Hopt Hca Hlo Hlb Hoptb Hcb Hund.
  unfold _choiceConfig, reject, chain.
  rewrite (split_app_dot _ _ Ha), (split_app_dot _ _ Hb), (split_dotfree _ Hc).
  cbn [removelast last flat_map app]. rewrite Hca, Hcb.
  cbn [filter]. 
  rewrite (isEmpty_VString _ Hna), (isEmpty_VString _ Hnb), (isEmpty_VString _ Hnc),
    (isEmpty_VString _ Hno).
  change (isEmpty (VString "options")) with false.
  change (isEmpty (VString "fields")) with false.
  change (isEmpty VUndefined) with false. cbn [negb].
  rewrite path_field, Hla, path_option, Hopt. cbn [to_key]. rewrite Hlo.
  rewrite path_field, Hlb, path_option, Hoptb. cbn [to_key]. now rewrite Hund.
Qed.

(** X21: for a reachable path [a.b.c] below the choices for [a] and [a.b],
    [_choiceConfig] reads the choice recorded under the bare name [b]; when
    there is none (and no option of [b] is named "undefined") it finds
    nothing, and the loop body throws [TypeError] whatever the value is. *)
Theorem path_below_two_choices_throws definition choices l a b c spec_a opts o n
    spec_b opts_b v :
  dotfree a = true -> dotfree b = true -> dotfree c = true ->
  a <> "" -> b <> "" -> c <> "" -> o <> "" ->
  lookup a (node_fields definition) = Some spec_a ->
  options spec_a = Enumerated opts ->
  choice_at choices a = VString o ->
  lookup o opts = Some n ->
  lookup b (node_fields n) = Some spec_b ->
  options spec_b = Enumerated opts_b ->
  choice_at choices b = VUndefined ->
  lookup "undefined" opts_b = None ->
  fields_of definition choices = Ok l ->
  In (a ++ "." ++ b ++ "." ++ c)%string l ->
  validate definition choices (a ++ "." ++ b ++ "." ++ c) v = Throw TypeError.
Proof.
  intros Ha Hb Hc Hna Hnb Hnc Hno Hla Hopt Hca Hlo Hlb Hoptb Hcb Hund Hl Hin.
  unfold validate. rewrite Hl. cbn [bind].
  apply contains_In in Hin. rewrite Hin. cbn [negb].
  now rewrite (_choiceConfig_grandchild_unresolved _ _ _ _ _ _ _ _ _ _ _
                 Ha Hb Hc Hna Hnb Hnc Hno Hla Hopt Hca Hlo Hlb Hoptb Hcb Hund).
Qed.

Lemma path_below_two_choices_throws_witness :
  validate academy [("class", VString "mage"); ("class.school", VString "fire")]
    "class.school.spell" (VString "fireball")
  = Throw TypeError.
Proof.
  refine (path_below_two_choices_throws academy
            [("class", VString "mage"); ("class.school", VString "fire")]
            ["school"; "class"; "class.school"; "class.school.spell"]
            "class" "school" "spell"
            (mkField (Enumerated [("mage", Node [("school", school_spec)])]) None None)
            [("mage", Node [("school", school_spec)])] "mage"
            (Node [("school", school_spec)]) school_spec
            [("fire", spell_of "fireball"); ("ice", spell_of "frostbolt")]
            (VString "fireball")
            eq_refl eq_refl eq_refl _ _ _ _ eq_refl eq_refl eq_refl eq_refl eq_refl
            eq_refl eq_refl eq_refl eq_refl _);
    try discriminate.
  simpl. tauto.
Defined.
